(** * async_comm: the asynchronous byte channel of [src/comm.cpp]

    A shallow embedding of [async_comm::Comm] (the class implemented in
    [comm.cpp]) and the properties of its write pipeline, read pipeline,
    callback dispatch and lifecycle.

    Conventions.
    - [size_t] values are integers in [Z]; every arithmetic operation of the
      source on them is followed by [wrap], reduction modulo [2^64].
    - Byte buffers are [list byte]; a pointer [p + k] into a buffer is
      [skipn k] of it, and [memcpy]/[asio::buffer] of [n] bytes is [firstn n].
    - Every method is a computation in the monad [M]: it transforms a [World]
      (the [Comm] object, the event loop and transport it talks to, and the
      locals of the callback thread) and appends to the world's [trace] the
      synchronisation actions, stores to shared fields, hook calls and thread
      operations it performs, in program order.
    - A method that blocks ([condition_variable::wait]) is split at the
      blocking call; the part after the call is [Disabled] until the
      predicate of the wait holds.
    - Threads interleave at the granularity of these computations: the
      bodies of [send_bytes] and of the success branch of [async_write_end]
      run under [write_mutex_], the accesses of [async_read_end] and
      [process_callbacks] to the read queue run under [callback_mutex_]. *)

From Stdlib Require Import ZArith List Bool Lia.
From Stdlib Require Import Init.Byte.
Import ListNotations.

Local Open Scope Z_scope.

(** ** Machine integers *)

Definition SIZE_MODULUS : Z := 2 ^ 64.

(** [size_t] arithmetic wraps around. *)
Definition wrap (z : Z) : Z := z mod SIZE_MODULUS.

(** [boost::asio::buffer(p, n)]: the [n] bytes starting at [p]. *)
Definition asio_buffer (p : list byte) (n : Z) : list byte :=
  firstn (Z.to_nat n) p.

(** ** Chunk buffers *)

Module WriteBuffer.

(** Modelled from the spec: [WriteBuffer] is declared in the header
    [async_comm/comm.h], which is not part of the sources at hand.  The
    spec describes it as an OutboundChunk: a byte payload of bounded size
    and a write cursor [pos]; [comm.cpp] constructs it from a pointer and a
    length, and uses [pos], [dpos()] and [nbytes()], the unsent remainder
    [payload[pos:]] and its size. *)
Record t : Type := mk { data : list byte; len : Z; pos : Z }.

(** [WriteBuffer(buf, len)]: copies [len] bytes, cursor at the start. *)
Definition new (buf : list byte) (n : Z) : t :=
  mk (asio_buffer buf n) n 0.

Definition dpos (b : t) : list byte := skipn (Z.to_nat (pos b)) (data b).

Definition nbytes (b : t) : Z := wrap (len b - pos b).

(** [buffer.pos += n] *)
Definition advance (n : Z) (b : t) : t := mk (data b) (len b) (wrap (pos b + n)).

End WriteBuffer.

Module ReadBuffer.

(** Modelled from the spec: [ReadBuffer] is declared in the absent header
    [async_comm/comm.h].  The spec describes it as an InboundChunk: a copy
    of the received bytes and their count; [comm.cpp] constructs it from
    the scratch buffer and the number of bytes transferred and reads its
    [data] and [len]. *)
Record t : Type := mk { data : list byte; len : Z }.

(** [ReadBuffer(buf, len)]: copies [len] bytes out of [buf]. *)
Definition new (buf : list byte) (n : Z) : t := mk (asio_buffer buf n) n.

(** What a callback reads through the pointer and length it is given. *)
Definition payload (b : t) : list byte := asio_buffer (data b) (len b).

End ReadBuffer.

(** ** The object and its environment *)

(** [std::thread]: a handle is joinable from the start of its thread until it
    is joined. *)
Inductive thread : Type := not_a_thread | attached.

Definition joinable (t : thread) : bool :=
  match t with attached => true | not_a_thread => false end.

(** [std::function]: empty until a callable is stored in it. *)
Inductive function : Type := empty_function | callable (id : nat).

Record Comm : Type := mkComm {
  error_ : bool;
  shutdown_ : bool;
  new_data_ : bool;
  callback_shutdown_ : bool;
  write_in_progress_ : bool;
  write_queue_ : list WriteBuffer.t;
  read_queue_ : list ReadBuffer.t;
  read_buffer_ : list byte;
  receive_callback_ : function;
  main_thread_ : thread;
  io_thread_ : thread;
  callback_thread_ : thread
}.

Inductive mutex : Type := main_mutex | callback_mutex | write_mutex.
Inductive condition_variable : Type := main_cv | callback_cv.
Inductive thread_id : Type := MainThread | IoThread | CallbackThread.

(** The shared fields of [Comm] a store can hit. *)
Inductive location : Type :=
| Lerror | Lshutdown | Lnew_data | Lcallback_shutdown | Lwrite_in_progress
| Lwrite_queue | Lread_queue.

(** What a thread does that another thread, the transport or the user can
    observe, in the order it does it. *)
Inductive event : Type :=
| Lock (m : mutex)
| Unlock (m : mutex)
| Store (l : location)
| NotifyOne (c : condition_variable)
| IoServiceStop
| DoInit (ok : bool)
| DoClose
| DoAsyncRead
| DoAsyncWrite (buf : list byte)
| ThreadStart (t : thread_id)
| ThreadJoin (t : thread_id)
| Cerr
| ReceiveCallback (f : nat) (data : list byte) (len : Z)
| WriteCompleted (buf : list byte) (error : bool) (bytes_transferred : Z)
| ReadCompleted (error : bool) (received : list byte).

(** Where the Callback Thread stands in [process_callbacks]. *)
Inductive callback_pc : Type :=
| CbNotStarted | CbWaiting | CbDispatching | CbExited.

Record World : Type := mkWorld {
  comm : Comm;
  (** [io_service_]: stopped or not, and the operations begun on the
      transport whose completion handler has not run yet *)
  io_stopped : bool;
  pending_writes : list (list byte);
  pending_reads : nat;
  (** the transport, as [is_open()] reports it *)
  transport_open : bool;
  (** the local variable [local_queue] of [process_callbacks] and the
      position of its thread *)
  local_queue : list ReadBuffer.t;
  callback_at : callback_pc;
  trace : list event
}.

(** *** Field updates *)

Definition set_error_ (v : bool) (c : Comm) : Comm :=
  mkComm v (shutdown_ c) (new_data_ c) (callback_shutdown_ c)
    (write_in_progress_ c) (write_queue_ c) (read_queue_ c) (read_buffer_ c)
    (receive_callback_ c) (main_thread_ c) (io_thread_ c) (callback_thread_ c).

Definition set_shutdown_ (v : bool) (c : Comm) : Comm :=
  mkComm (error_ c) v (new_data_ c) (callback_shutdown_ c)
    (write_in_progress_ c) (write_queue_ c) (read_queue_ c) (read_buffer_ c)
    (receive_callback_ c) (main_thread_ c) (io_thread_ c) (callback_thread_ c).

Definition set_new_data_ (v : bool) (c : Comm) : Comm :=
  mkComm (error_ c) (shutdown_ c) v (callback_shutdown_ c)
    (write_in_progress_ c) (write_queue_ c) (read_queue_ c) (read_buffer_ c)
    (receive_callback_ c) (main_thread_ c) (io_thread_ c) (callback_thread_ c).

Definition set_callback_shutdown_ (v : bool) (c : Comm) : Comm :=
  mkComm (error_ c) (shutdown_ c) (new_data_ c) v
    (write_in_progress_ c) (write_queue_ c) (read_queue_ c) (read_buffer_ c)
    (receive_callback_ c) (main_thread_ c) (io_thread_ c) (callback_thread_ c).

Definition set_write_in_progress_ (v : bool) (c : Comm) : Comm :=
  mkComm (error_ c) (shutdown_ c) (new_data_ c) (callback_shutdown_ c)
    v (write_queue_ c) (read_queue_ c) (read_buffer_ c)
    (receive_callback_ c) (main_thread_ c) (io_thread_ c) (callback_thread_ c).

Definition set_write_queue_ (v : list WriteBuffer.t) (c : Comm) : Comm :=
  mkComm (error_ c) (shutdown_ c) (new_data_ c) (callback_shutdown_ c)
    (write_in_progress_ c) v (read_queue_ c) (read_buffer_ c)
    (receive_callback_ c) (main_thread_ c) (io_thread_ c) (callback_thread_ c).

Definition set_read_queue_ (v : list ReadBuffer.t) (c : Comm) : Comm :=
  mkComm (error_ c) (shutdown_ c) (new_data_ c) (callback_shutdown_ c)
    (write_in_progress_ c) (write_queue_ c) v (read_buffer_ c)
    (receive_callback_ c) (main_thread_ c) (io_thread_ c) (callback_thread_ c).

Definition set_read_buffer_ (v : list byte) (c : Comm) : Comm :=
  mkComm (error_ c) (shutdown_ c) (new_data_ c) (callback_shutdown_ c)
    (write_in_progress_ c) (write_queue_ c) (read_queue_ c) v
    (receive_callback_ c) (main_thread_ c) (io_thread_ c) (callback_thread_ c).

Definition set_receive_callback_ (v : function) (c : Comm) : Comm :=
  mkComm (error_ c) (shutdown_ c) (new_data_ c) (callback_shutdown_ c)
    (write_in_progress_ c) (write_queue_ c) (read_queue_ c) (read_buffer_ c)
    v (main_thread_ c) (io_thread_ c) (callback_thread_ c).

Definition thread_of (t : thread_id) (c : Comm) : thread :=
  match t with
  | MainThread => main_thread_ c
  | IoThread => io_thread_ c
  | CallbackThread => callback_thread_ c
  end.

Definition set_thread (t : thread_id) (v : thread) (c : Comm) : Comm :=
  mkComm (error_ c) (shutdown_ c) (new_data_ c) (callback_shutdown_ c)
    (write_in_progress_ c) (write_queue_ c) (read_queue_ c) (read_buffer_ c)
    (receive_callback_ c)
    (match t with MainThread => v | _ => main_thread_ c end)
    (match t with IoThread => v | _ => io_thread_ c end)
    (match t with CallbackThread => v | _ => callback_thread_ c end).

Definition set_comm (v : Comm) (w : World) : World :=
  mkWorld v (io_stopped w) (pending_writes w) (pending_reads w)
    (transport_open w) (local_queue w) (callback_at w) (trace w).

Definition set_io_stopped (v : bool) (w : World) : World :=
  mkWorld (comm w) v (pending_writes w) (pending_reads w)
    (transport_open w) (local_queue w) (callback_at w) (trace w).

Definition set_pending_writes (v : list (list byte)) (w : World) : World :=
  mkWorld (comm w) (io_stopped w) v (pending_reads w)
    (transport_open w) (local_queue w) (callback_at w) (trace w).

Definition set_pending_reads (v : nat) (w : World) : World :=
  mkWorld (comm w) (io_stopped w) (pending_writes w) v
    (transport_open w) (local_queue w) (callback_at w) (trace w).

Definition set_transport_open (v : bool) (w : World) : World :=
  mkWorld (comm w) (io_stopped w) (pending_writes w) (pending_reads w)
    v (local_queue w) (callback_at w) (trace w).

Definition set_local_queue (v : list ReadBuffer.t) (w : World) : World :=
  mkWorld (comm w) (io_stopped w) (pending_writes w) (pending_reads w)
    (transport_open w) v (callback_at w) (trace w).

Definition set_callback_at (v : callback_pc) (w : World) : World :=
  mkWorld (comm w) (io_stopped w) (pending_writes w) (pending_reads w)
    (transport_open w) (local_queue w) v (trace w).

Definition set_trace (v : list event) (w : World) : World :=
  mkWorld (comm w) (io_stopped w) (pending_writes w) (pending_reads w)
    (transport_open w) (local_queue w) (callback_at w) v.

(** ** The monad of methods *)

(** Why a computation yields no world: its next step cannot be taken in this
    world ([Disabled]: a wait whose predicate is false, a completion the
    transport cannot deliver); the program is aborted ([Aborted]:
    [std::terminate], an uncaught exception, [front()] of an empty list); or
    a loop was given too little fuel. *)
Inductive failure : Type := Disabled | Aborted | OutOfFuel.

Inductive outcome (A : Type) : Type :=
| Done (a : A) (w : World)
| Fail (f : failure).

Arguments Done {A} a w.
Arguments Fail {A} f.

Definition M (A : Type) : Type := World -> outcome A.

Definition ret {A : Type} (a : A) : M A := fun w => Done a w.

Definition bind {A B : Type} (m : M A) (k : A -> M B) : M B :=
  fun w => match m w with
           | Done a w' => k a w'
           | Fail f => Fail f
           end.

Notation "x <- m ;; k" := (bind m (fun x => k))
  (at level 61, m at next level, right associativity).
Notation "m ;; k" := (bind m (fun _ => k))
  (at level 61, right associativity).

Definition fail {A : Type} (f : failure) : M A := fun _ => Fail f.

Definition get {A : Type} (f : Comm -> A) : M A := fun w => Done (f (comm w)) w.

Definition emit (e : event) : M unit :=
  fun w => Done tt (set_trace (trace w ++ [e]) w).

(** A store to a shared field of the object. *)
Definition store (l : location) (f : Comm -> Comm) : M unit :=
  emit (Store l) ;; fun w => Done tt (set_comm (f (comm w)) w).

Definition lock (m : mutex) : M unit := emit (Lock m).
Definition unlock (m : mutex) : M unit := emit (Unlock m).
Definition notify_one (c : condition_variable) : M unit := emit (NotifyOne c).
Definition cerr : M unit := emit Cerr.

(** [cv.wait(lock, pred)] seen from its return: the predicate holds and the
    lock is held. *)
Definition wait_return (m : mutex) (pred : Comm -> bool) : M unit :=
  p <- get pred ;;
  if p then lock m else fail Disabled.

(** [handle = std::thread(body)]: the new thread starts, then the handle is
    move-assigned, which terminates the program when it is joinable. *)
Definition thread_assign (t : thread_id) : M unit :=
  emit (ThreadStart t) ;;
  j <- get (fun c => joinable (thread_of t c)) ;;
  if j then fail Aborted
  else fun w => Done tt (set_comm (set_thread t attached (comm w)) w).

(** [handle.join()], taken to return: that the joined thread ends is a
    property of that thread, not of the caller. *)
Definition join (t : thread_id) : M unit :=
  emit (ThreadJoin t) ;;
  fun w => Done tt (set_comm (set_thread t not_a_thread (comm w)) w).

Definition io_service_stop : M unit :=
  emit IoServiceStop ;; fun w => Done tt (set_io_stopped true w).

(** *** The transport hooks

    Modelled from the spec: the hooks [do_init], [do_close], [is_open],
    [do_async_read] and [do_async_write] are implemented by the concrete
    transports, outside [comm.cpp].  The spec gives them as the capability
    interface [open() -> bool], [close()], [begin_read(buffer, on_complete)],
    [begin_write(buffer, on_complete)].  Opening succeeds or fails as the
    transport decides ([ok]); a begun operation stays pending until the
    event loop runs its completion handler. *)

Definition do_init (ok : bool) : M bool :=
  emit (DoInit ok) ;; fun w => Done ok (set_transport_open ok w).

Definition do_close : M unit :=
  emit DoClose ;; fun w => Done tt (set_transport_open false w).

Definition is_open : M bool := fun w => Done (transport_open w) w.

Definition do_async_read : M unit :=
  emit DoAsyncRead ;; fun w => Done tt (set_pending_reads (S (pending_reads w)) w).

Definition do_async_write (buf : list byte) : M unit :=
  emit (DoAsyncWrite buf) ;;
  fun w => Done tt (set_pending_writes (pending_writes w ++ [buf]) w).

(** [write_queue_.front()]: undefined on an empty list. *)
Definition front : M WriteBuffer.t :=
  q <- get write_queue_ ;;
  match q with
  | [] => fail Aborted
  | b :: _ => ret b
  end.

(** [write_queue_.pop_front()]: undefined on an empty list. *)
Definition pop_front : M unit :=
  q <- get write_queue_ ;;
  match q with
  | [] => fail Aborted
  | _ :: rest => store Lwrite_queue (set_write_queue_ rest)
  end.

(** [local_queue.splice(local_queue.end(), read_queue_)]: every element of
    the read queue moves to the end of the local list. *)
Definition splice : M unit :=
  emit (Store Lread_queue) ;;
  fun w => Done tt
    (set_comm (set_read_queue_ [] (comm w))
       (set_local_queue (local_queue w ++ read_queue_ (comm w)) w)).

(** [std::function::operator()]: throws when empty. *)
Definition call_receive_callback (data : list byte) (len : Z) : M unit :=
  f <- get receive_callback_ ;;
  match f with
  | empty_function => fail Aborted
  | callable id => emit (ReceiveCallback id data len)
  end.

(** ** The methods of [Comm] *)

Section Channel.

(** The buffer sizes are constants of the absent header; the methods are
    read for any value of them. *)
Variable WRITE_BUFFER_SIZE : Z.
Variable READ_BUFFER_SIZE : Z.

(** [Comm::Comm()] *)
Definition Comm_ctor : Comm :=
  mkComm false false false false false [] []
    (repeat x00 (Z.to_nat READ_BUFFER_SIZE))
    empty_function not_a_thread not_a_thread not_a_thread.

(** A freshly constructed object, its event loop idle and its transport
    not yet opened. *)
Definition new_world : World :=
  mkWorld Comm_ctor false [] 0 false [] CbNotStarted [].

(** [Comm::register_receive_callback] *)
Definition register_receive_callback (f : nat) : M unit :=
  fun w => Done tt (set_comm (set_receive_callback_ (callable f) (comm w)) w).

(** [Comm::async_read] *)
Definition async_read : M unit :=
  o <- is_open ;;
  if negb o then ret tt
  else do_async_read.

(** [Comm::async_read_end] *)
Definition async_read_end (error : bool) (bytes_transferred : Z) : M unit :=
  if error then
    cerr ;;
    lock main_mutex ;;
    store Lerror (set_error_ true) ;;
    unlock main_mutex ;;
    notify_one main_cv
  else
    lock callback_mutex ;;
    store Lread_queue
      (fun c => set_read_queue_
         (read_queue_ c ++ [ReadBuffer.new (read_buffer_ c) bytes_transferred]) c) ;;
    store Lnew_data (set_new_data_ true) ;;
    unlock callback_mutex ;;
    notify_one callback_cv ;;
    async_read.

(** [Comm::async_write] *)
Definition async_write (check_write_state : bool) : M unit :=
  in_progress <- get write_in_progress_ ;;
  if check_write_state && in_progress then ret tt
  else
    lock write_mutex ;;
    q <- get write_queue_ ;;
    match q with
    | [] => unlock write_mutex
    | _ :: _ =>
        store Lwrite_in_progress (set_write_in_progress_ true) ;;
        buffer <- front ;;
        do_async_write (asio_buffer (WriteBuffer.dpos buffer) (WriteBuffer.nbytes buffer)) ;;
        unlock write_mutex
    end.

(** The loop of [Comm::send_bytes], from position [pos] on. *)
Fixpoint send_bytes_loop (fuel : nat) (src : list byte) (len pos : Z) : M unit :=
  match fuel with
  | O => fail OutOfFuel
  | S fuel' =>
      if pos <? len then
        let num_bytes :=
          if wrap (len - pos) >? WRITE_BUFFER_SIZE
          then WRITE_BUFFER_SIZE else wrap (len - pos) in
        store Lwrite_queue
          (fun c => set_write_queue_
             (write_queue_ c ++ [WriteBuffer.new (skipn (Z.to_nat pos) src) num_bytes]) c) ;;
        send_bytes_loop fuel' src len (wrap (pos + WRITE_BUFFER_SIZE))
      else ret tt
  end.

(** [Comm::send_bytes] *)
Definition send_bytes (fuel : nat) (src : list byte) (len : Z) : M unit :=
  lock write_mutex ;;
  send_bytes_loop fuel src len 0 ;;
  async_write true ;;
  unlock write_mutex.

(** [send_bytes] of a whole byte string, with fuel for one turn of the
    loop per byte and the final test. *)
Definition send (bytes : list byte) : M unit :=
  send_bytes (S (length bytes)) bytes (Z.of_nat (length bytes)).

(** [Comm::async_write_end] *)
Definition async_write_end (error : bool) (bytes_transferred : Z) : M unit :=
  if error then
    cerr ;;
    lock main_mutex ;;
    store Lerror (set_error_ true) ;;
    unlock main_mutex ;;
    notify_one main_cv
  else
    lock write_mutex ;;
    q <- get write_queue_ ;;
    match q with
    | [] =>
        store Lwrite_in_progress (set_write_in_progress_ false) ;;
        unlock write_mutex
    | _ :: _ =>
        buffer <- front ;;
        store Lwrite_queue
          (fun c => set_write_queue_
             (WriteBuffer.advance bytes_transferred buffer :: tl (write_queue_ c)) c) ;;
        buffer <- front ;;
        (if WriteBuffer.nbytes buffer =? 0 then pop_front else ret tt) ;;
        q' <- get write_queue_ ;;
        match q' with
        | [] => store Lwrite_in_progress (set_write_in_progress_ false)
        | _ :: _ => async_write false
        end ;;
        unlock write_mutex
    end.

(** [Comm::run], up to the wait on [main_condition_variable_]. *)
Definition run_start : M unit :=
  thread_assign CallbackThread ;;
  (fun w => Done tt (set_callback_at CbWaiting w)) ;;
  async_read ;;
  thread_assign IoThread.

(** [Comm::run], from the return of the wait to the end. *)
Definition run_stop : M unit :=
  wait_return main_mutex (fun c => error_ c || shutdown_ c) ;;
  unlock main_mutex ;;
  io_service_stop ;;
  lock callback_mutex ;;
  store Lcallback_shutdown (set_callback_shutdown_ true) ;;
  unlock callback_mutex ;;
  notify_one callback_cv ;;
  j <- get (fun c => joinable (io_thread_ c)) ;;
  (if j then join IoThread else ret tt) ;;
  j <- get (fun c => joinable (callback_thread_ c)) ;;
  (if j then join CallbackThread else ret tt).

(** [Comm::run] when the wait does not block. *)
Definition run : M unit := run_start ;; run_stop.

(** [Comm::process_callbacks]: from the return of the wait to the inner
    loop, or to the end of the thread. *)
Definition process_callbacks_wake : M unit :=
  wait_return callback_mutex (fun c => new_data_ c || callback_shutdown_ c) ;;
  s <- get callback_shutdown_ ;;
  if s then
    unlock callback_mutex ;;
    fun w => Done tt (set_callback_at CbExited w)
  else
    splice ;;
    store Lnew_data (set_new_data_ false) ;;
    unlock callback_mutex ;;
    fun w => Done tt (set_callback_at CbDispatching w).

(** [Comm::process_callbacks]: one test of the inner loop and, when the
    local queue is not empty, one turn of it. *)
Definition process_callbacks_invoke : M unit :=
  fun w =>
    match local_queue w with
    | [] => Done tt (set_callback_at CbWaiting w)
    | buffer :: rest =>
        (call_receive_callback (ReadBuffer.data buffer) (ReadBuffer.len buffer) ;;
         fun w' => Done tt (set_local_queue rest w')) w
    end.

(** [Comm::shutdown] *)
Definition shutdown : M unit :=
  lock main_mutex ;;
  store Lshutdown (set_shutdown_ true) ;;
  unlock main_mutex ;;
  notify_one main_cv ;;
  j <- get (fun c => joinable (main_thread_ c)) ;;
  if j then join MainThread else ret tt.

(** [Comm::~Comm] *)
Definition Comm_dtor : M unit := shutdown.

(** [Comm::init]; [ok] is what the transport's [do_init] answers. *)
Definition init (ok : bool) : M bool :=
  r <- do_init ok ;;
  if negb r then ret false
  else
    thread_assign MainThread ;;
    ret true.

(** [Comm::close] *)
Definition close : M unit :=
  io_service_stop ;;
  do_close ;;
  shutdown.

(** ** The channel at work

    What happens to an open channel, one atomic step at a time: the owner
    sends bytes; the event loop runs the handler of a completed write or
    read; the Callback Thread wakes up or takes one turn of its inner
    loop. *)
Inductive label : Type :=
| CallSend (bytes : list byte)
| WriteDone (error : bool) (bytes_transferred : Z)
| ReadDone (error : bool) (received : list byte)
| CallbackWake
| CallbackInvoke.

(** The event loop runs the handler of the oldest pending write.  The
    transport reports at most as many bytes as it was given. *)
Definition write_done (error : bool) (bytes_transferred : Z) : M unit :=
  fun w =>
    match pending_writes w with
    | [] => Fail Disabled
    | buf :: rest =>
        if negb (io_stopped w) && (0 <=? bytes_transferred)
           && (bytes_transferred <=? Z.of_nat (length buf))
        then
          (emit (WriteCompleted buf error bytes_transferred) ;;
           async_write_end error bytes_transferred)
            (set_pending_writes rest w)
        else Fail Disabled
    end.

(** The event loop runs the handler of a pending read.  The transport has
    put the bytes it received at the start of the scratch buffer, which
    holds [READ_BUFFER_SIZE] bytes. *)
Definition read_done (error : bool) (received : list byte) : M unit :=
  fun w =>
    match pending_reads w with
    | O => Fail Disabled
    | S n =>
        if negb (io_stopped w) && (Z.of_nat (length received) <=? READ_BUFFER_SIZE)
        then
          (emit (ReadCompleted error received) ;;
           async_read_end error (Z.of_nat (length received)))
            (set_comm
               (set_read_buffer_
                  (received ++ skipn (length received) (read_buffer_ (comm w)))
                  (comm w))
               (set_pending_reads n w))
        else Fail Disabled
    end.

Definition callback_at_eqb (a b : callback_pc) : bool :=
  match a, b with
  | CbNotStarted, CbNotStarted | CbWaiting, CbWaiting
  | CbDispatching, CbDispatching | CbExited, CbExited => true
  | _, _ => false
  end.

Definition when_callback_at (pc : callback_pc) (m : M unit) : M unit :=
  fun w => if callback_at_eqb (callback_at w) pc then m w else Fail Disabled.

(** A payload and a chunk buffer are objects in one address space, so the
    size of the one plus the size of the other is a [size_t]. *)
Definition sendable (bytes : list byte) : bool :=
  Z.of_nat (length bytes) + WRITE_BUFFER_SIZE <=? SIZE_MODULUS.

Definition step (l : label) : M unit :=
  match l with
  | CallSend bytes => if sendable bytes then send bytes else fail Disabled
  | WriteDone error n => write_done error n
  | ReadDone error received => read_done error received
  | CallbackWake => when_callback_at CbWaiting process_callbacks_wake
  | CallbackInvoke => when_callback_at CbDispatching process_callbacks_invoke
  end.

Fixpoint exec (ls : list label) : M unit :=
  match ls with
  | [] => ret tt
  | l :: ls' => step l ;; exec ls'
  end.

(** ** What a schedule and a trace tell *)

(** The bytes the owner sent, in call order. *)
Fixpoint sent (ls : list label) : list byte :=
  match ls with
  | [] => []
  | CallSend bytes :: ls' => bytes ++ sent ls'
  | _ :: ls' => sent ls'
  end.

End Channel.

(** ** What a trace tells *)

(** The byte strings passed to the transport's write operation. *)
Fixpoint passed (tr : list event) : list (list byte) :=
  match tr with
  | [] => []
  | DoAsyncWrite buf :: tr' => buf :: passed tr'
  | _ :: tr' => passed tr'
  end.

(** The bytes the transport reported written, in completion order: of each
    byte string passed to a write that completed without error, the first
    [bytes_transferred] bytes. *)
Fixpoint transferred (tr : list event) : list byte :=
  match tr with
  | [] => []
  | WriteCompleted buf false n :: tr' => asio_buffer buf n ++ transferred tr'
  | _ :: tr' => transferred tr'
  end.

(** Whether a write completed with an error. *)
Fixpoint write_failed (tr : list event) : bool :=
  match tr with
  | [] => false
  | WriteCompleted _ true _ :: _ => true
  | _ :: tr' => write_failed tr'
  end.

(** Whether every write that completed without error reported the whole
    byte string it was passed. *)
Fixpoint whole_writes (tr : list event) : bool :=
  match tr with
  | [] => true
  | WriteCompleted buf false n :: tr' =>
      (n =? Z.of_nat (length buf)) && whole_writes tr'
  | _ :: tr' => whole_writes tr'
  end.

(** The bytes still to be written: the unsent remainder of every queued
    chunk. *)
Fixpoint queued (q : list WriteBuffer.t) : list byte :=
  match q with
  | [] => []
  | b :: q' =>
      asio_buffer (WriteBuffer.dpos b) (WriteBuffer.nbytes b) ++ queued q'
  end.

(** The payloads the transport delivered, in completion order. *)
Fixpoint arrived (tr : list event) : list (list byte) :=
  match tr with
  | [] => []
  | ReadCompleted false received :: tr' => received :: arrived tr'
  | _ :: tr' => arrived tr'
  end.

(** The payloads the callback was invoked with, in invocation order. *)
Fixpoint delivered (tr : list event) : list (list byte) :=
  match tr with
  | [] => []
  | ReceiveCallback _ data len :: tr' => asio_buffer data len :: delivered tr'
  | _ :: tr' => delivered tr'
  end.
(** ** Chunking *)

(** The chunks the loop of [send_bytes] appends, as a list. *)
Fixpoint loop_chunks (N : Z) (fuel : nat) (src : list byte) (len pos : Z)
  : option (list WriteBuffer.t) :=
  match fuel with
  | O => None
  | S fuel' =>
      if pos <? len then
        let num_bytes := if wrap (len - pos) >? N then N else wrap (len - pos) in
        match loop_chunks N fuel' src len (wrap (pos + N)) with
        | Some cs => Some (WriteBuffer.new (skipn (Z.to_nat pos) src) num_bytes :: cs)
        | None => None
        end
      else Some []
  end.

(** The world after [cs] was appended to the write queue, chunk by chunk. *)
Definition enqueue (cs : list WriteBuffer.t) (w : World) : World :=
  set_comm (set_write_queue_ (write_queue_ (comm w) ++ cs) (comm w))
    (set_trace (trace w ++ repeat (Store Lwrite_queue) (length cs)) w).

(** A chunk as [send_bytes] makes it: cursor at the start, between one and
    [N] bytes, as many as its length says. *)
Definition fresh_chunk (N : Z) (c : WriteBuffer.t) : Prop :=
  WriteBuffer.pos c = 0 /\
  0 < WriteBuffer.len c <= N /\
  Z.of_nat (length (WriteBuffer.data c)) = WriteBuffer.len c.

(** The unsent remainder of a chunk, as [async_write] passes it on. *)
Definition remainder (b : WriteBuffer.t) : list byte :=
  asio_buffer (WriteBuffer.dpos b) (WriteBuffer.nbytes b).

(** A queued chunk: the cursor is inside the payload, which is as long as
    [len] says and fits a chunk buffer. *)
Definition chunk_wf (N : Z) (b : WriteBuffer.t) : Prop :=
  0 <= WriteBuffer.pos b < WriteBuffer.len b /\
  WriteBuffer.len b <= N /\
  Z.of_nat (length (WriteBuffer.data b)) = WriteBuffer.len b.

(** The three phases of the write pipeline: nothing to write; the unsent
    remainder of the front chunk in flight; stopped by a failed write. *)
Inductive write_phase (w : World) : Prop :=
| Idle :
    write_in_progress_ (comm w) = false ->
    write_queue_ (comm w) = [] ->
    pending_writes w = [] ->
    write_failed (trace w) = false ->
    write_phase w
| Busy (b : WriteBuffer.t) (q : list WriteBuffer.t) :
    write_in_progress_ (comm w) = true ->
    write_queue_ (comm w) = b :: q ->
    pending_writes w = [remainder b] ->
    write_failed (trace w) = false ->
    write_phase w
| Dead :
    write_in_progress_ (comm w) = true ->
    pending_writes w = [] ->
    write_failed (trace w) = true ->
    write_phase w.

(** What holds of the write pipeline after the owner sent [bytes]: the
    queued chunks are well formed; the bytes reported written and the bytes
    still queued make up [bytes]; the pipeline is in one of its phases; as
    long as every completion reported the whole string it was passed, the
    strings passed are the bytes reported written and the string in flight. *)
Record write_inv (N : Z) (bytes : list byte) (w : World) : Prop := {
  wi_chunks : Forall (chunk_wf N) (write_queue_ (comm w));
  wi_bytes : transferred (trace w) ++ queued (write_queue_ (comm w)) = bytes;
  wi_phase : write_phase w;
  wi_passed :
    whole_writes (trace w) = true -> write_failed (trace w) = false ->
    concat (passed (trace w)) = transferred (trace w) ++ concat (pending_writes w)
}.

(** ** Locks and the trace *)

Definition mutex_eqb (a b : mutex) : bool :=
  match a, b with
  | main_mutex, main_mutex | callback_mutex, callback_mutex
  | write_mutex, write_mutex => true
  | _, _ => false
  end.

Definition location_eqb (a b : location) : bool :=
  match a, b with
  | Lerror, Lerror | Lshutdown, Lshutdown | Lnew_data, Lnew_data
  | Lcallback_shutdown, Lcallback_shutdown
  | Lwrite_in_progress, Lwrite_in_progress
  | Lwrite_queue, Lwrite_queue | Lread_queue, Lread_queue => true
  | _, _ => false
  end.

(** How often [m] is held after [tr], when it was held [d] times before. *)
Fixpoint held (m : mutex) (d : nat) (tr : list event) : nat :=
  match tr with
  | [] => d
  | Lock m' :: tr' => held m (if mutex_eqb m m' then S d else d) tr'
  | Unlock m' :: tr' => held m (if mutex_eqb m m' then Nat.pred d else d) tr'
  | _ :: tr' => held m d tr'
  end.

(** Every invocation of the receive callback in [tr] happens while [m] is
    not held. *)
Fixpoint calls_unlocked (m : mutex) (d : nat) (tr : list event) : bool :=
  match tr with
  | [] => true
  | Lock m' :: tr' => calls_unlocked m (if mutex_eqb m m' then S d else d) tr'
  | Unlock m' :: tr' => calls_unlocked m (if mutex_eqb m m' then Nat.pred d else d) tr'
  | ReceiveCallback _ _ _ :: tr' => Nat.eqb d 0 && calls_unlocked m d tr'
  | _ :: tr' => calls_unlocked m d tr'
  end.

(** Every store to [l] in [tr] happens while [m] is held. *)
Fixpoint stores_guarded (m : mutex) (l : location) (d : nat) (tr : list event) : bool :=
  match tr with
  | [] => true
  | Lock m' :: tr' => stores_guarded m l (if mutex_eqb m m' then S d else d) tr'
  | Unlock m' :: tr' => stores_guarded m l (if mutex_eqb m m' then Nat.pred d else d) tr'
  | Store l' :: tr' =>
      (negb (location_eqb l l') || negb (Nat.eqb d 0)) && stores_guarded m l d tr'
  | _ :: tr' => stores_guarded m l d tr'
  end.

(** What holds of the read pipeline and the callback dispatch of a running
    channel: the payloads delivered and the payloads of the chunks still in
    the local and the read queue are the payloads that arrived, in order; a
    non-empty read queue is flagged; the local queue is empty outside the
    inner loop; a callback is registered; no shutdown of the Callback Thread
    was requested; [callback_mutex_] is free between two steps and was free
    at every invocation of the callback. *)
Record read_inv (w : World) : Prop := {
  ri_payloads :
    delivered (trace w)
      ++ map ReadBuffer.payload (local_queue w ++ read_queue_ (comm w))
    = arrived (trace w);
  ri_new_data : new_data_ (comm w) = false -> read_queue_ (comm w) = [];
  ri_local : callback_at w <> CbDispatching -> local_queue w = [];
  ri_registered : receive_callback_ (comm w) <> empty_function;
  ri_running : callback_shutdown_ (comm w) = false;
  ri_free : held callback_mutex 0 (trace w) = 0%nat;
  ri_unlocked : calls_unlocked callback_mutex 0 (trace w) = true
}.

(** The write and the read side together. *)
Definition inv (N : Z) (bytes : list byte) (w : World) : Prop :=
  write_inv N bytes w /\ read_inv w.

(** ** The open channel *)

(** The owner registers a callback and opens the channel; the Supervisor
    runs up to its wait. *)
Definition open_channel (f : nat) : M bool :=
  register_receive_callback f ;;
  ok <- init true ;;
  run_start ;;
  ret ok.

(** The world [open_channel] leaves: the three threads started, the
    Callback Thread waiting, the first read pending. *)
Definition opened (R : Z) (f : nat) : World :=
  mkWorld
    (mkComm false false false false false [] []
       (repeat x00 (Z.to_nat R)) (callable f) attached attached attached)
    false [] 1 true [] CbWaiting
    [DoInit true; ThreadStart MainThread; ThreadStart CallbackThread;
     DoAsyncRead; ThreadStart IoThread].

(** ** Order in a trace *)

(** The events a computation appends to the trace of [w]. *)
Definition performed {A : Type} (m : M A) (w : World) : list event :=
  match m w with
  | Done _ w' => skipn (length (trace w)) (trace w')
  | Fail _ => []
  end.

(** The position of the first event of [tr] that satisfies [p]. *)
Fixpoint position (p : event -> bool) (tr : list event) : option nat :=
  match tr with
  | [] => None
  | e :: tr' => if p e then Some O else option_map S (position p tr')
  end.

(** An event satisfying [p] occurs, and one satisfying [q] occurs later. *)
Definition before (p q : event -> bool) (tr : list event) : bool :=
  match position p tr, position q tr with
  | Some i, Some j => Nat.ltb i j
  | _, _ => false
  end.

Definition thread_id_eqb (a b : thread_id) : bool :=
  match a, b with
  | MainThread, MainThread | IoThread, IoThread
  | CallbackThread, CallbackThread => true
  | _, _ => false
  end.

Definition is_io_stop (e : event) : bool :=
  match e with IoServiceStop => true | _ => false end.

Definition is_join (t : thread_id) (e : event) : bool :=
  match e with ThreadJoin t' => thread_id_eqb t t' | _ => false end.

Definition is_store (l : location) (e : event) : bool :=
  match e with Store l' => location_eqb l l' | _ => false end.

Definition is_notify_callback (e : event) : bool :=
  match e with NotifyOne callback_cv => true | _ => false end.

(** The world a failed read or write completion leaves: the error flag set
    under [main_mutex_], the Supervisor notified, nothing else touched. *)
Definition errored (w : World) : World :=
  set_comm (set_error_ true (comm w))
    (set_trace (trace w ++ [Cerr; Lock main_mutex; Store Lerror;
                            Unlock main_mutex; NotifyOne main_cv]) w).

(** ** The claims that fail, as the spec states them *)

(** Chunking is transparent, stated of the byte strings passed to the
    transport: when a schedule leaves the write queue empty, these strings,
    concatenated, are the bytes sent. *)
Definition passed_strings_are_sent (N R : Z) (f : nat) (ls : list label) : Prop :=
  forall w,
    exec N R ls (opened R f) = Done tt w ->
    write_queue_ (comm w) = [] ->
    concat (passed (trace w)) = sent ls.

(** The least [k] with [M <= k * N]. *)
Definition ceil_div (M N : Z) : Z := (M + N - 1) / N.

(** The four steps of the shutdown protocol in the order the spec gives
    them: stop the event loop, join the I/O Loop Thread, set
    callback-shutdown-requested and wake the Callback Thread, join the
    Callback Thread. *)
Definition spec_shutdown_order (tr : list event) : bool :=
  before is_io_stop (is_join IoThread) tr
  && before (is_join IoThread) (is_store Lcallback_shutdown) tr
  && before (is_store Lcallback_shutdown) is_notify_callback tr
  && before is_notify_callback (is_join CallbackThread) tr.

(** The Supervisor, woken after the schedule [ls], shuts down in that
    order. *)
Definition shutdown_in_spec_order (N R : Z) (f : nat) (ls : list label) : Prop :=
  forall w,
    exec N R ls (opened R f) = Done tt w ->
    error_ (comm w) || shutdown_ (comm w) = true ->
    spec_shutdown_order (performed run_stop w) = true.

(** The handler of a successful read completion ends by arming the next
    read. *)
Definition rearms_after_read (w : World) (bytes_transferred : Z) : Prop :=
  exists w',
    async_read_end false bytes_transferred w = Done tt w' /\
    trace w' = trace w ++ [Lock callback_mutex; Store Lread_queue; Store Lnew_data;
                           Unlock callback_mutex; NotifyOne callback_cv; DoAsyncRead].

(** An open channel whose owner has entered [close()] and has stopped the
    event loop and closed the transport, while a completion handler that was
    already running has not yet returned. *)
Definition closing (R : Z) (f : nat) : World :=
  set_transport_open false
    (set_io_stopped true
       (set_trace (trace (opened R f) ++ [IoServiceStop; DoClose]) (opened R f))).

(** ** More observations *)

(** Whether a read completed with an error. *)
Fixpoint read_failed (tr : list event) : bool :=
  match tr with
  | [] => false
  | ReadCompleted true _ :: _ => true
  | _ :: tr' => read_failed tr'
  end.

(** The lock discipline of the shared fields: every store to the write
    queue or the in-flight flag happens under [write_mutex_], every store to
    the read queue or the new-data flag under [callback_mutex_], every store
    to the error flag under [main_mutex_]. *)
Definition stores_locked (tr : list event) : bool :=
  stores_guarded write_mutex Lwrite_queue 0 tr
  && stores_guarded write_mutex Lwrite_in_progress 0 tr
  && stores_guarded callback_mutex Lread_queue 0 tr
  && stores_guarded callback_mutex Lnew_data 0 tr
  && stores_guarded main_mutex Lerror 0 tr.

(** The three locks are free. *)
Definition locks_free (tr : list event) : bool :=
  Nat.eqb (held write_mutex 0 tr) 0
  && Nat.eqb (held callback_mutex 0 tr) 0
  && Nat.eqb (held main_mutex 0 tr) 0.

(** The owner opens the channel without registering a callback. *)
Definition open_unregistered : M bool :=
  ok <- init true ;;
  run_start ;;
  ret ok.

(** The world [open_unregistered] leaves. *)
Definition unregistered (R : Z) : World :=
  mkWorld
    (mkComm false false false false false [] []
       (repeat x00 (Z.to_nat R)) empty_function attached attached attached)
    false [] 1 true [] CbWaiting
    [DoInit true; ThreadStart MainThread; ThreadStart CallbackThread;
     DoAsyncRead; ThreadStart IoThread].

(** One completion per queued chunk, each reporting the whole remainder of
    its chunk. *)
Definition whole_completions (q : list WriteBuffer.t) : list label :=
  map (fun b => WriteDone false (WriteBuffer.nbytes b)) q.
(** * Proofs *)

(** ** Integers and traces *)

Lemma wrap_small (z : Z) : 0 <= z < SIZE_MODULUS -> wrap z = z.
Proof. intros H. unfold wrap. now apply Z.mod_small. Qed.

Lemma transferred_app (tr tr' : list event) :
  transferred (tr ++ tr') = transferred tr ++ transferred tr'.
Proof.
  induction tr as [|e tr IH]; [reflexivity|].
  destruct e; cbn; auto. destruct error; cbn; auto.
  now rewrite IH, app_assoc.
Qed.

Lemma passed_app (tr tr' : list event) :
  passed (tr ++ tr') = passed tr ++ passed tr'.
Proof.
  induction tr as [|e tr IH]; [reflexivity|].
  destruct e; cbn; auto. now rewrite IH.
Qed.

Lemma write_failed_app (tr tr' : list event) :
  write_failed (tr ++ tr') = write_failed tr || write_failed tr'.
Proof.
  induction tr as [|e tr IH]; [reflexivity|].
  destruct e; cbn; auto. destruct error; cbn; auto.
Qed.

Lemma whole_writes_app (tr tr' : list event) :
  whole_writes (tr ++ tr') = whole_writes tr && whole_writes tr'.
Proof.
  induction tr as [|e tr IH]; [reflexivity|].
  destruct e; cbn; auto. destruct error; cbn; auto.
  now rewrite IH, andb_assoc.
Qed.

Lemma queued_app (q q' : list WriteBuffer.t) :
  queued (q ++ q') = queued q ++ queued q'.
Proof.
  induction q as [|b q IH]; [reflexivity|].
  cbn. now rewrite IH, app_assoc.
Qed.

Lemma arrived_app (tr tr' : list event) :
  arrived (tr ++ tr') = arrived tr ++ arrived tr'.
Proof.
  induction tr as [|e tr IH]; [reflexivity|].
  destruct e; cbn; auto. destruct error; cbn; auto. now rewrite IH.
Qed.

Lemma delivered_app (tr tr' : list event) :
  delivered (tr ++ tr') = delivered tr ++ delivered tr'.
Proof.
  induction tr as [|e tr IH]; [reflexivity|].
  destruct e; cbn; auto. now rewrite IH.
Qed.

Lemma held_app (m : mutex) (tr tr' : list event) :
  forall d, held m d (tr ++ tr') = held m (held m d tr) tr'.
Proof.
  induction tr as [|e tr IH]; intros d; [reflexivity|].
  destruct e; cbn; auto.
Qed.

Lemma calls_unlocked_app (m : mutex) (tr tr' : list event) :
  forall d, calls_unlocked m d (tr ++ tr')
            = calls_unlocked m d tr && calls_unlocked m (held m d tr) tr'.
Proof.
  induction tr as [|e tr IH]; intros d; [reflexivity|].
  destruct e; cbn; auto. rewrite IH. now rewrite andb_assoc.
Qed.

Lemma stores_guarded_app (m : mutex) (l : location) (tr tr' : list event) :
  forall d, stores_guarded m l d (tr ++ tr')
            = stores_guarded m l d tr && stores_guarded m l (held m d tr) tr'.
Proof.
  induction tr as [|e tr IH]; intros d; [reflexivity|].
  destruct e; cbn; auto. rewrite IH. now rewrite andb_assoc.
Qed.

Lemma transferred_stores (n : nat) (l : location) :
  transferred (repeat (Store l) n) = [].
Proof. induction n; [reflexivity|exact IHn]. Qed.

Lemma write_failed_stores (n : nat) (l : location) :
  write_failed (repeat (Store l) n) = false.
Proof. induction n; [reflexivity|exact IHn]. Qed.

Lemma passed_stores (n : nat) (l : location) :
  passed (repeat (Store l) n) = [].
Proof. induction n; [reflexivity|exact IHn]. Qed.

Lemma whole_writes_stores (n : nat) (l : location) :
  whole_writes (repeat (Store l) n) = true.
Proof. induction n; [reflexivity|exact IHn]. Qed.

Lemma arrived_stores (n : nat) (l : location) : arrived (repeat (Store l) n) = [].
Proof. induction n; [reflexivity|exact IHn]. Qed.

Lemma delivered_stores (n : nat) (l : location) : delivered (repeat (Store l) n) = [].
Proof. induction n; [reflexivity|exact IHn]. Qed.

Lemma held_stores (m : mutex) (n : nat) (l : location) (d : nat) :
  held m d (repeat (Store l) n) = d.
Proof. induction n; [reflexivity|exact IHn]. Qed.

Lemma calls_unlocked_stores (m : mutex) (n : nat) (l : location) (d : nat) :
  calls_unlocked m d (repeat (Store l) n) = true.
Proof. induction n; [reflexivity|exact IHn]. Qed.

(** Normalises what the observers say of a trace that was extended. *)
Ltac obs :=
  do 3 (repeat rewrite ?transferred_app, ?write_failed_app, ?passed_app,
          ?whole_writes_app, ?concat_app,
          ?transferred_stores, ?write_failed_stores, ?passed_stores,
          ?whole_writes_stores,
          ?arrived_app, ?delivered_app, ?held_app, ?calls_unlocked_app,
          ?arrived_stores, ?delivered_stores, ?held_stores, ?calls_unlocked_stores;
        cbn; rewrite ?app_nil_r, ?orb_false_r, ?andb_true_r).

(** Splits a world into its fields, so that the methods compute on it. *)
Ltac crush_world w :=
  let c := fresh "c" in
  destruct w as [c ? ? ? ? ? ? ?]; destruct c.

Ltac unfold_ops :=
  unfold async_write_end, async_read_end, async_read, async_write,
    process_callbacks_wake, process_callbacks_invoke, call_receive_callback,
    wait_return, splice, pop_front, front, is_open, do_async_read, do_async_write,
    cerr, notify_one, store, unlock, lock, emit, get, bind, ret, fail.

(** ** Chunking *)

Lemma enqueue_nil (w : World) : enqueue [] w = w.
Proof.
  destruct w as [c ? ? ? ? ? ? tr]; destruct c.
  unfold enqueue; cbn. now rewrite !app_nil_r.
Qed.

Lemma enqueue_cons (c : WriteBuffer.t) (cs : list WriteBuffer.t) (w : World) :
  enqueue cs (enqueue [c] w) = enqueue (c :: cs) w.
Proof.
  unfold enqueue; cbn.
  now rewrite <- !app_assoc.
Qed.

Lemma send_bytes_loop_chunks (N : Z) (src : list byte) (len : Z) :
  forall (fuel : nat) (pos : Z) (w : World),
    send_bytes_loop N fuel src len pos w =
    match loop_chunks N fuel src len pos with
    | Some cs => Done tt (enqueue cs w)
    | None => Fail OutOfFuel
    end.
Proof.
  induction fuel as [|fuel IH]; intros pos w; cbn [send_bytes_loop loop_chunks].
  - reflexivity.
  - destruct (pos <? len).
    + unfold store, bind, emit at 1. rewrite IH.
      destruct (loop_chunks N fuel src len (wrap (pos + N))) as [cs|]; [|reflexivity].
      f_equal. rewrite <- enqueue_cons. reflexivity.
    + unfold ret. now rewrite enqueue_nil.
Qed.

Lemma loop_chunks_spec (N : Z) (src : list byte) :
  0 < N ->
  Z.of_nat (length src) + N <= SIZE_MODULUS ->
  forall (fuel : nat) (pos : Z),
    0 <= pos < Z.of_nat (length src) + N ->
    (Z.of_nat (length src) - pos + N - 1) / N < Z.of_nat fuel ->
    exists cs,
      loop_chunks N fuel src (Z.of_nat (length src)) pos = Some cs /\
      Z.of_nat (length cs) = (Z.of_nat (length src) - pos + N - 1) / N /\
      Forall (fresh_chunk N) cs /\
      Forall (fun c => WriteBuffer.len c = N) (removelast cs) /\
      flat_map WriteBuffer.data cs = skipn (Z.to_nat pos) src.
Proof.
  intros HN Hsize.
  set (len := Z.of_nat (length src)) in *.
  induction fuel as [|fuel IH]; intros pos Hpos Hfuel.
  - exfalso.
    assert (0 <= (len - pos + N - 1) / N) by (apply Z.div_pos; lia).
    lia.
  - cbn [loop_chunks].
    destruct (Z.ltb_spec pos len) as [Hlt|Hge].
    + assert (Hw1 : wrap (len - pos) = len - pos) by (apply wrap_small; lia).
      assert (Hw2 : wrap (pos + N) = pos + N) by (apply wrap_small; lia).
      rewrite Hw1, Hw2.
      assert (Hdiv : (len - pos + N - 1) / N = 1 + (len - (pos + N) + N - 1) / N).
      { replace (len - pos + N - 1) with (len - (pos + N) + N - 1 + 1 * N) by lia.
        rewrite Z.div_add by lia. lia. }
      destruct (IH (pos + N)) as (cs & Hcs & Hlen & Hok & Hfull & Hcat); [lia|lia|].
      rewrite Hcs. eexists; split; [reflexivity|].
      split; [cbn [length]; lia|].
      destruct (Z.gtb_spec (len - pos) N) as [Hbig|Hsmall].
      * (* a full chunk *)
        split; [|split].
        -- constructor; [|assumption].
           unfold fresh_chunk, WriteBuffer.new, asio_buffer; cbn.
           repeat split; try lia.
           rewrite length_firstn, length_skipn. lia.
        -- cbn [removelast]. destruct cs as [|c cs]; [constructor|].
           constructor; [reflexivity|assumption].
        -- cbn [flat_map]. rewrite Hcat.
           unfold WriteBuffer.new, asio_buffer; cbn [WriteBuffer.data].
           replace (Z.to_nat (pos + N)) with (Z.to_nat N + Z.to_nat pos)%nat by lia.
           rewrite <- skipn_skipn. apply firstn_skipn.
      * (* the last chunk *)
        assert (Hz : (len - (pos + N) + N - 1) / N = 0) by (apply Z.div_small; lia).
        assert (cs = []) by (destruct cs; [reflexivity|cbn [length] in Hlen; lia]).
        subst cs.
        split; [|split].
        -- constructor; [|constructor].
           unfold fresh_chunk, WriteBuffer.new, asio_buffer; cbn.
           repeat split; try lia.
           rewrite length_firstn, length_skipn. lia.
        -- constructor.
        -- cbn [flat_map]. rewrite app_nil_r.
           unfold WriteBuffer.new, asio_buffer; cbn [WriteBuffer.data].
           apply firstn_all2. rewrite length_skipn. lia.
    + assert (Hz : (len - pos + N - 1) / N = 0) by (apply Z.div_small; lia).
      exists []. repeat split; try constructor.
      * cbn. lia.
      * cbn. symmetry. apply skipn_all2. lia.
Qed.

Lemma send_fuel (N : Z) (n : nat) :
  0 < N -> (Z.of_nat n - 0 + N - 1) / N < Z.of_nat (S n).
Proof.
  intros HN. apply Z.div_lt_upper_bound; [lia|]. nia.
Qed.

Lemma send_chunks (N : Z) (bytes : list byte) :
  0 < N -> sendable N bytes = true ->
  exists cs,
    loop_chunks N (S (length bytes)) bytes (Z.of_nat (length bytes)) 0 = Some cs /\
    Z.of_nat (length cs) = (Z.of_nat (length bytes) + N - 1) / N /\
    Forall (fresh_chunk N) cs /\
    Forall (fun c => WriteBuffer.len c = N) (removelast cs) /\
    flat_map WriteBuffer.data cs = bytes.
Proof.
  intros HN Hs. unfold sendable in Hs. apply Z.leb_le in Hs.
  destruct (loop_chunks_spec N bytes HN Hs (S (length bytes)) 0)
    as (cs & H1 & H2 & H3 & H4 & H5).
  - lia.
  - apply send_fuel, HN.
  - exists cs. rewrite Z.sub_0_r in H2. cbn [Z.to_nat skipn] in H5. auto.
Qed.

(** ** The write pipeline *)

Lemma fresh_chunk_wf (N : Z) (c : WriteBuffer.t) :
  fresh_chunk N c -> chunk_wf N c.
Proof. unfold fresh_chunk, chunk_wf. intuition lia. Qed.

Lemma remainder_wf (N : Z) (b : WriteBuffer.t) :
  N < SIZE_MODULUS -> chunk_wf N b ->
  remainder b = skipn (Z.to_nat (WriteBuffer.pos b)) (WriteBuffer.data b) /\
  Z.of_nat (length (remainder b)) = WriteBuffer.len b - WriteBuffer.pos b.
Proof.
  intros HN (Hpos & Hlen & Hdata).
  unfold remainder, asio_buffer, WriteBuffer.dpos, WriteBuffer.nbytes.
  rewrite wrap_small by lia.
  rewrite firstn_all2 by (rewrite length_skipn; lia).
  split; [reflexivity|]. rewrite length_skipn. lia.
Qed.

Lemma queued_fresh (N : Z) (cs : list WriteBuffer.t) :
  N < SIZE_MODULUS -> Forall (fresh_chunk N) cs ->
  queued cs = flat_map WriteBuffer.data cs.
Proof.
  intros HN H. induction H as [|c cs Hc _ IH]; [reflexivity|].
  cbn [queued flat_map]. rewrite IH. f_equal.
  fold (remainder c).
  destruct (remainder_wf N c HN (fresh_chunk_wf N c Hc)) as [-> _].
  destruct Hc as (-> & _). reflexivity.
Qed.

Lemma advance_spec (N : Z) (b : WriteBuffer.t) (n : Z) :
  N < SIZE_MODULUS -> chunk_wf N b ->
  0 <= n <= Z.of_nat (length (remainder b)) ->
  WriteBuffer.nbytes (WriteBuffer.advance n b) = WriteBuffer.len b - WriteBuffer.pos b - n /\
  asio_buffer (remainder b) n ++ remainder (WriteBuffer.advance n b) = remainder b /\
  (WriteBuffer.nbytes (WriteBuffer.advance n b) <> 0 -> chunk_wf N (WriteBuffer.advance n b)).
Proof.
  intros HN Hwf Hn.
  destruct (remainder_wf N b HN Hwf) as [Hrem Hlen].
  rewrite Hlen in Hn. destruct Hwf as (Hpos & Hmax & Hdata).
  assert (Hw : wrap (WriteBuffer.pos b + n) = WriteBuffer.pos b + n)
    by (apply wrap_small; lia).
  assert (Hnb : WriteBuffer.nbytes (WriteBuffer.advance n b)
                = WriteBuffer.len b - WriteBuffer.pos b - n).
  { unfold WriteBuffer.nbytes, WriteBuffer.advance; cbn.
    rewrite Hw. rewrite wrap_small by lia. lia. }
  split; [exact Hnb|]. split.
  - rewrite Hrem. unfold remainder at 1. rewrite Hnb.
    unfold asio_buffer, WriteBuffer.dpos, WriteBuffer.advance; cbn. rewrite Hw.
    replace (Z.to_nat (WriteBuffer.pos b + n))
      with (Z.to_nat n + Z.to_nat (WriteBuffer.pos b))%nat by lia.
    rewrite <- skipn_skipn.
    rewrite (firstn_all2 (n := Z.to_nat (WriteBuffer.len b - WriteBuffer.pos b - n)))
      by (rewrite !length_skipn; lia).
    apply firstn_skipn.
  - rewrite Hnb. intros Hlt. unfold chunk_wf, WriteBuffer.advance; cbn. rewrite Hw. lia.
Qed.

Lemma send_write_inv (N : Z) (s bytes : list byte) (w : World) :
  0 < N < SIZE_MODULUS -> sendable N bytes = true ->
  write_inv N s w ->
  exists w', send N bytes w = Done tt w' /\ write_inv N (s ++ bytes) w'.
Proof.
  intros HN Hs [Hch Hby Hph Hpa].
  destruct (send_chunks N bytes) as (cs & Hcs & _ & Hfresh & _ & Hcat); [lia|assumption|].
  unfold send, send_bytes, bind, lock, emit.
  rewrite send_bytes_loop_chunks, Hcs.
  assert (Hq : queued cs = bytes) by (rewrite (queued_fresh N) by (auto; lia); exact Hcat).
  assert (Hwf : Forall (chunk_wf N) cs)
    by (eapply Forall_impl; [apply fresh_chunk_wf|exact Hfresh]).
  unfold enqueue. unfold_ops.
  clear Hcs Hs Hcat.
  crush_world w.
  destruct Hph as [H1 H2 H3 H4|b q H1 H2 H3 H4|H1 H3 H4]; cbn in *; subst; cbn in *.
  - (* idle: the kick issues the first new chunk, if any *)
    destruct cs as [|c cs]; cbn;
      (eexists; split; [reflexivity|]; split; cbn;
       [assumption|obs; reflexivity| |obs; intros Hw _; rewrite (Hpa Hw H4); obs; reflexivity]).
    + apply Idle; cbn; auto. obs. exact H4.
    + eapply Busy; cbn; eauto. obs. exact H4.
  - (* busy: the kick does nothing *)
    eexists; split; [reflexivity|]; split; cbn.
    + constructor; [now inversion Hch|].
      apply Forall_app; split; [now inversion Hch|exact Hwf].
    + obs. rewrite queued_app, <- !app_assoc. reflexivity.
    + eapply Busy; cbn; eauto. obs. exact H4.
    + obs. intros Hw _. rewrite (Hpa Hw H4). now rewrite app_nil_r.
  - (* dead: the kick does nothing *)
    eexists; split; [reflexivity|]; split; cbn.
    + apply Forall_app; split; assumption.
    + obs. rewrite queued_app, <- !app_assoc. reflexivity.
    + eapply Dead; cbn; eauto. obs. exact H4.
    + obs. rewrite H4. discriminate.
Qed.

Lemma asio_buffer_whole (buf : list byte) (n : Z) :
  (n =? Z.of_nat (length buf)) = true -> asio_buffer buf n = buf.
Proof.
  intros H. apply Z.eqb_eq in H. subst n.
  unfold asio_buffer. rewrite Nat2Z.id. apply firstn_all.
Qed.

Lemma write_done_write_inv (N : Z) (s : list byte) (error : bool) (n : Z) (w : World) :
  N < SIZE_MODULUS ->
  write_inv N s w ->
  match write_done error n w with
  | Done _ w' => write_inv N s w'
  | Fail f => f = Disabled
  end.
Proof.
  intros HN [Hch Hby Hph Hpa].
  unfold write_done. unfold_ops.
  crush_world w.
  destruct Hph as [H1 H2 H3 H4|b q H1 H2 H3 H4|H1 H3 H4]; cbn in *; subst; cbn in *;
    try reflexivity.
  destruct (negb io_stopped0 && (0 <=? n) && (n <=? Z.of_nat (length (remainder b))))
    eqn:En; [|reflexivity].
  apply andb_prop in En as [En En2]. apply andb_prop in En as [_ En1].
  apply Z.leb_le in En1, En2.
  inversion Hch as [|? ? Hb Hq]; subst.
  destruct (advance_spec N b n HN Hb (conj En1 En2)) as (Hnb & Hsplit & Hadv).
  assert (Hwhole : forall tr, (n =? Z.of_nat (length (remainder b))) && tr = true ->
                    asio_buffer (remainder b) n = remainder b /\ tr = true).
  { intros tr H. apply andb_prop in H as [H ?]. split; [|assumption].
    now apply asio_buffer_whole. }
  destruct error; cbn.
  - (* the write failed: the pipeline is dead *)
    split; cbn; [assumption|obs; reflexivity| |].
    + apply Dead; cbn; auto. obs. rewrite H4. reflexivity.
    + obs. intros _; rewrite H4; discriminate.
  - destruct (Z.eqb_spec (WriteBuffer.nbytes (WriteBuffer.advance n b)) 0) as [Hz|Hnz]; cbn.
    + (* the front chunk is fully sent *)
      assert (Hall : asio_buffer (remainder b) n = remainder b).
      { rewrite <- Hsplit at 2. unfold remainder at 3. rewrite Hz.
        unfold asio_buffer at 2. cbn. now rewrite app_nil_r. }
      destruct q as [|b' q']; cbn.
      * split; cbn; [constructor|obs; now rewrite Hall| |].
        -- apply Idle; cbn; auto. obs. now rewrite H4.
        -- obs. intros Hw _. apply andb_prop in Hw as [Hw _].
           rewrite (Hpa Hw H4), Hall. now rewrite app_nil_r.
      * split; cbn; [assumption|obs; rewrite Hall; now rewrite <- app_assoc| |].
        -- eapply Busy; cbn; eauto. obs. now rewrite H4.
        -- obs. intros Hw _. apply andb_prop in Hw as [Hw _].
           rewrite (Hpa Hw H4), Hall. now rewrite !app_nil_r.
    + (* part of the front chunk is left *)
      split; cbn.
      * constructor; [apply Hadv; assumption|assumption].
      * obs. fold (remainder b). rewrite <- Hsplit at 2. now rewrite <- !app_assoc.
      * eapply Busy; cbn; eauto. obs. now rewrite H4.
      * obs. intros Hw _. apply andb_prop in Hw as [Hw Hn].
        apply asio_buffer_whole in Hn.
        rewrite <- Hsplit in Hn at 2.
        assert (Hnil : remainder (WriteBuffer.advance n b) = []).
        { apply (f_equal (@length byte)) in Hn. rewrite length_app in Hn.
          destruct (remainder (WriteBuffer.advance n b)); [reflexivity|].
          cbn [length] in Hn. lia. }
        fold (remainder (WriteBuffer.advance n b)). rewrite Hnil.
        rewrite (Hpa Hw H4). rewrite <- Hsplit at 1. rewrite Hnil.
        now rewrite !app_nil_r.
Qed.

Ltac write_inv_same H :=
  let Hph := fresh "Hph" in
  destruct H as [? ? Hph]; split; cbn in *; obs; auto;
  destruct Hph as [? ? ? Hwf|? ? ? ? ? Hwf|? ? Hwf]; cbn in *;
  [apply Idle|eapply Busy|apply Dead]; cbn; obs; rewrite ?Hwf; eauto.

Lemma read_done_write_inv (R N : Z) (s : list byte) (error : bool)
  (received : list byte) (w w' : World) :
  read_done R error received w = Done tt w' -> write_inv N s w -> write_inv N s w'.
Proof.
  unfold read_done. unfold_ops.
  crush_world w. cbn.
  destruct pending_reads0 as [|k]; [discriminate|].
  destruct (negb io_stopped0 && _); [|discriminate].
  destruct error; cbn.
  - intros [= <-] H. write_inv_same H.
  - destruct transport_open0; cbn; intros [= <-] H; write_inv_same H.
Qed.

Lemma wake_write_inv (N : Z) (s : list byte) (w w' : World) :
  process_callbacks_wake w = Done tt w' -> write_inv N s w -> write_inv N s w'.
Proof.
  unfold_ops. crush_world w. cbn.
  destruct (new_data_0 || callback_shutdown_0); [|discriminate]. cbn.
  destruct callback_shutdown_0; cbn; intros [= <-] H; write_inv_same H.
Qed.

Lemma invoke_write_inv (N : Z) (s : list byte) (w w' : World) :
  process_callbacks_invoke w = Done tt w' -> write_inv N s w -> write_inv N s w'.
Proof.
  unfold_ops. crush_world w. cbn.
  destruct local_queue0 as [|b rest]; cbn.
  - intros [= <-] H; write_inv_same H.
  - destruct receive_callback_0; cbn; [discriminate|].
    intros [= <-] H; write_inv_same H.
Qed.

(** ** The read pipeline and the callback dispatch *)

Ltac read_inv_same H :=
  destruct H as [? ? ? ? ? Hfree Hunl]; split; cbn in *; obs;
  rewrite ?Hfree, ?Hunl; cbn; auto.

Lemma payload_new (received rest : list byte) :
  ReadBuffer.payload
    (ReadBuffer.new (received ++ rest) (Z.of_nat (length received))) = received.
Proof.
  unfold ReadBuffer.payload, ReadBuffer.new, asio_buffer; cbn.
  rewrite Nat2Z.id, firstn_app, Nat.sub_diag, firstn_all; cbn.
  rewrite app_nil_r. apply firstn_all.
Qed.

Lemma send_read_inv (N : Z) (bytes : list byte) (w w' : World) :
  send N bytes w = Done tt w' -> read_inv w -> read_inv w'.
Proof.
  unfold send, send_bytes, bind, lock, emit.
  rewrite send_bytes_loop_chunks.
  destruct (loop_chunks _ _ _ _ _) as [cs|]; [|discriminate].
  unfold enqueue. unfold_ops.
  crush_world w. cbn.
  destruct write_in_progress_0; cbn.
  - intros [= <-] H. read_inv_same H.
  - destruct (write_queue_0 ++ cs) as [|b q]; cbn; intros [= <-] H; read_inv_same H.
Qed.

Lemma write_done_read_inv (error : bool) (n : Z) (w w' : World) :
  write_done error n w = Done tt w' -> read_inv w -> read_inv w'.
Proof.
  unfold write_done. unfold_ops.
  crush_world w. cbn.
  destruct pending_writes0 as [|buf rest]; [discriminate|].
  destruct (negb io_stopped0 && (0 <=? n) && (n <=? Z.of_nat (length buf)));
    [|discriminate].
  destruct error; cbn.
  - intros [= <-] H. read_inv_same H.
  - destruct write_queue_0 as [|b q]; cbn.
    + intros [= <-] H. read_inv_same H.
    + destruct (WriteBuffer.nbytes (WriteBuffer.advance n b) =? 0); cbn.
      * destruct q as [|b' q']; cbn; intros [= <-] H; read_inv_same H.
      * intros [= <-] H; read_inv_same H.
Qed.

Lemma read_done_read_inv (R : Z) (error : bool) (received : list byte) (w : World) :
  read_inv w ->
  match read_done R error received w with
  | Done _ w' => read_inv w'
  | Fail f => f = Disabled
  end.
Proof.
  unfold read_done. unfold_ops.
  crush_world w. cbn.
  destruct pending_reads0 as [|k]; [reflexivity|].
  destruct (negb io_stopped0 && _); [|reflexivity].
  intros H. destruct error; cbn.
  - read_inv_same H.
  - destruct H as [Hp Hn Hl Hr Hrun Hfree Hunl]; cbn in *.
    destruct transport_open0; cbn; split; cbn; obs;
      rewrite ?Hfree, ?Hunl; cbn; auto; try discriminate.
    all: rewrite app_assoc, map_app; cbn; rewrite payload_new.
    all: rewrite app_assoc, Hp; reflexivity.
Qed.

Lemma wake_read_inv (w : World) :
  callback_at w = CbWaiting ->
  read_inv w ->
  match process_callbacks_wake w with
  | Done _ w' => read_inv w'
  | Fail f => f = Disabled
  end.
Proof.
  unfold_ops. crush_world w. cbn. intros -> H.
  destruct (new_data_0 || callback_shutdown_0); [|reflexivity]. cbn.
  destruct H as [Hp Hn Hl Hr Hrun Hfree Hunl]; cbn in *.
  rewrite Hl in * by discriminate.
  destruct callback_shutdown_0; cbn; split; cbn; obs;
    rewrite ?Hfree, ?Hunl; cbn; auto; try discriminate.
  intros C; now elim C.
Qed.

Lemma invoke_read_inv (w : World) :
  callback_at w = CbDispatching ->
  read_inv w ->
  match process_callbacks_invoke w with
  | Done _ w' => read_inv w'
  | Fail f => f = Disabled
  end.
Proof.
  unfold_ops. crush_world w. cbn. intros -> H.
  destruct H as [Hp Hn Hl Hr Hrun Hfree Hunl]; cbn in *.
  destruct local_queue0 as [|b rest]; cbn.
  - split; cbn; auto.
  - destruct receive_callback_0; cbn; [congruence|].
    split; cbn; obs; rewrite ?Hfree, ?Hunl; cbn; auto; try discriminate.
    + rewrite <- Hp, <- app_assoc. reflexivity.
    + intros C; now elim C.
Qed.

(** ** Schedules *)

Lemma open_channel_opened (R : Z) (f : nat) :
  open_channel f (new_world R) = Done true (opened R f).
Proof. reflexivity. Qed.

Lemma inv_opened (N R : Z) (f : nat) : inv N [] (opened R f).
Proof.
  split.
  - split; cbn; auto.
    apply Idle; reflexivity.
  - split; cbn; auto; discriminate.
Qed.

Lemma sent_cons (l : label) (ls : list label) : sent (l :: ls) = sent [l] ++ sent ls.
Proof. destruct l; cbn; auto. now rewrite app_nil_r. Qed.

Lemma step_inv (N R : Z) (s : list byte) (l : label) (w : World) :
  0 < N < SIZE_MODULUS ->
  inv N s w ->
  match step N R l w with
  | Done _ w' => inv N (s ++ sent [l]) w'
  | Fail fl => fl = Disabled
  end.
Proof.
  intros HN [Hw Hr].
  destruct l as [bytes|error n|error received| |]; cbn [step sent]; rewrite ?app_nil_r.
  - destruct (sendable N bytes) eqn:Hs; [|reflexivity].
    destruct (send_write_inv N s bytes w HN Hs Hw) as (w' & E & Hw').
    rewrite E. split; [exact Hw'|]. exact (send_read_inv N bytes w w' E Hr).
  - pose proof (write_done_write_inv N s error n w (proj2 HN) Hw) as H.
    destruct (write_done error n w) as [[] w'|fl] eqn:E; [|exact H].
    split; [exact H|]. exact (write_done_read_inv error n w w' E Hr).
  - pose proof (read_done_read_inv R error received w Hr) as H.
    destruct (read_done R error received w) as [[] w'|fl] eqn:E; [|exact H].
    split; [|exact H]. exact (read_done_write_inv R N s error received w w' E Hw).
  - unfold when_callback_at.
    destruct (callback_at w) eqn:Hat; cbn; try reflexivity.
    pose proof (wake_read_inv w Hat Hr) as H.
    destruct (process_callbacks_wake w) as [[] w'|fl] eqn:E; [|exact H].
    split; [|exact H]. exact (wake_write_inv N s w w' E Hw).
  - unfold when_callback_at.
    destruct (callback_at w) eqn:Hat; cbn; try reflexivity.
    pose proof (invoke_read_inv w Hat Hr) as H.
    destruct (process_callbacks_invoke w) as [[] w'|fl] eqn:E; [|exact H].
    split; [|exact H]. exact (invoke_write_inv N s w w' E Hw).
Qed.

Lemma exec_inv (N R : Z) (ls : list label) :
  0 < N < SIZE_MODULUS ->
  forall (s : list byte) (w : World),
    inv N s w ->
    match exec N R ls w with
    | Done _ w' => inv N (s ++ sent ls) w'
    | Fail fl => fl = Disabled
    end.
Proof.
  intros HN. induction ls as [|l ls IH]; intros s w Hinv.
  - cbn. now rewrite app_nil_r.
  - cbn [exec]. unfold bind.
    pose proof (step_inv N R s l w HN Hinv) as H.
    destruct (step N R l w) as [[] w'|fl]; [|exact H].
    specialize (IH _ _ H).
    rewrite sent_cons, app_assoc. exact IH.
Qed.

Lemma exec_opened (N R : Z) (f : nat) (ls : list label) :
  0 < N < SIZE_MODULUS ->
  match exec N R ls (opened R f) with
  | Done _ w => inv N (sent ls) w
  | Fail fl => fl = Disabled
  end.
Proof.
  intros HN. exact (exec_inv N R ls HN [] (opened R f) (inv_opened N R f)).
Qed.

(** ** The kick of the write-completion handler *)

Lemma step_io_stopped (N R : Z) (l : label) (w w' : World) :
  step N R l w = Done tt w' -> io_stopped w' = io_stopped w.
Proof.
  destruct l as [bytes|error n|error received| |]; cbn [step].
  - destruct (sendable N bytes); [|discriminate].
    unfold send, send_bytes, bind, lock, emit.
    rewrite send_bytes_loop_chunks.
    destruct (loop_chunks _ _ _ _ _) as [cs|]; [|discriminate].
    unfold enqueue. unfold_ops. crush_world w. cbn.
    destruct write_in_progress_0; cbn; [intros [= <-]; reflexivity|].
    destruct (write_queue_0 ++ cs); cbn; intros [= <-]; reflexivity.
  - unfold write_done. unfold_ops. crush_world w. cbn.
    destruct pending_writes0 as [|buf rest]; [discriminate|].
    destruct (negb io_stopped0 && _ && _); [|discriminate].
    destruct error; cbn; [intros [= <-]; reflexivity|].
    destruct write_queue_0 as [|b q]; cbn; [intros [= <-]; reflexivity|].
    destruct (WriteBuffer.nbytes (WriteBuffer.advance n b) =? 0); cbn.
    + destruct q; cbn; intros [= <-]; reflexivity.
    + intros [= <-]; reflexivity.
  - unfold read_done. unfold_ops. crush_world w. cbn.
    destruct pending_reads0 as [|k]; [discriminate|].
    destruct (negb io_stopped0 && _); [|discriminate].
    destruct error, transport_open0; cbn; intros [= <-]; reflexivity.
  - unfold when_callback_at. destruct (callback_at_eqb _ _); [|discriminate].
    unfold_ops. crush_world w. cbn.
    destruct (new_data_0 || callback_shutdown_0); [|discriminate]. cbn.
    destruct callback_shutdown_0; cbn; intros [= <-]; reflexivity.
  - unfold when_callback_at. destruct (callback_at_eqb _ _); [|discriminate].
    unfold_ops. crush_world w. cbn.
    destruct local_queue0 as [|b rest]; cbn; [intros [= <-]; reflexivity|].
    destruct receive_callback_0; cbn; [discriminate|].
    intros [= <-]; reflexivity.
Qed.

Lemma exec_io_stopped (N R : Z) (ls : list label) :
  forall w w', exec N R ls w = Done tt w' -> io_stopped w' = io_stopped w.
Proof.
  induction ls as [|l ls IH]; intros w w'.
  - cbn. now intros [= <-].
  - cbn [exec]. unfold bind.
    destruct (step N R l w) as [[] w1|fl] eqn:E; [|discriminate].
    intros E'. rewrite (IH w1 w' E'). exact (step_io_stopped N R l w w1 E).
Qed.

(** What the handler of a successful write completion does to a non-empty
    queue: the count is taken off the front chunk, a fully sent chunk is
    removed, and the handler itself passes on the remainder of the chunk
    that is then at the front, or clears the flag when none is left. *)
Lemma write_end_kick (N : Z) (w : World) (b : WriteBuffer.t)
  (q : list WriteBuffer.t) (n : Z) :
  N < SIZE_MODULUS ->
  write_queue_ (comm w) = b :: q ->
  chunk_wf N b ->
  0 <= n <= WriteBuffer.len b - WriteBuffer.pos b ->
  exists w',
    async_write_end false n w = Done tt w' /\
    (n < WriteBuffer.len b - WriteBuffer.pos b ->
     write_queue_ (comm w') = WriteBuffer.advance n b :: q /\
     pending_writes w' = pending_writes w ++ [skipn (Z.to_nat n) (remainder b)] /\
     write_in_progress_ (comm w') = true) /\
    (n = WriteBuffer.len b - WriteBuffer.pos b ->
     write_queue_ (comm w') = q /\
     match q with
     | [] => pending_writes w' = pending_writes w /\
             write_in_progress_ (comm w') = false
     | b' :: _ => pending_writes w' = pending_writes w ++ [remainder b'] /\
                  write_in_progress_ (comm w') = true
     end).
Proof.
  intros HN Hq Hb Hn.
  assert (Hlen := proj2 (remainder_wf N b HN Hb)).
  assert (Hn' : 0 <= n <= Z.of_nat (length (remainder b))) by lia.
  destruct (advance_spec N b n HN Hb Hn') as (Hnb & Hsplit & Hadv).
  assert (Hrest : n < WriteBuffer.len b - WriteBuffer.pos b ->
                  remainder (WriteBuffer.advance n b)
                  = skipn (Z.to_nat n) (remainder b)).
  { intros Hlt. rewrite <- Hsplit at 1.
    rewrite skipn_app.
    assert (Hl : length (asio_buffer (remainder b) n) = Z.to_nat n).
    { unfold asio_buffer. rewrite length_firstn. lia. }
    rewrite Hl, Nat.sub_diag, skipn_all2 by lia. reflexivity. }
  unfold_ops. crush_world w. cbn in Hq |- *. subst. cbn.
  destruct (Z.eqb_spec (WriteBuffer.nbytes (WriteBuffer.advance n b)) 0) as [Hz|Hnz];
    cbn.
  - destruct q as [|b' q']; cbn; eexists; (split; [reflexivity|]); cbn;
      (split; [intros Hlt; lia|intros _; repeat split]).
  - eexists; (split; [reflexivity|]); cbn.
    split; [|intros He; lia].
    intros Hlt. repeat split; auto.
    fold (remainder (WriteBuffer.advance n b)). now rewrite (Hrest Hlt).
Qed.

(** The handler of a successful write completion does not read the
    in-flight flag: it sets it, whatever it was. *)
Lemma write_end_ignores_flag (w : World) (n : Z) (v : bool) :
  async_write_end false n (set_comm (set_write_in_progress_ v (comm w)) w)
  = async_write_end false n w.
Proof.
  unfold_ops. crush_world w. cbn.
  destruct write_queue_0 as [|b q]; cbn; [reflexivity|].
  destruct (WriteBuffer.nbytes (WriteBuffer.advance n b) =? 0); cbn.
  - destruct q; cbn; reflexivity.
  - reflexivity.
Qed.

(** The transport completes the pending write in full: the front chunk
    leaves the queue and the invariant is kept. *)
Lemma write_done_whole (N R : Z) (s : list byte) (w : World) (b : WriteBuffer.t)
  (q : list WriteBuffer.t) :
  N < SIZE_MODULUS ->
  write_inv N s w ->
  io_stopped w = false ->
  write_queue_ (comm w) = b :: q ->
  write_failed (trace w) = false ->
  exists w',
    step N R (WriteDone false (WriteBuffer.nbytes b)) w = Done tt w' /\
    write_queue_ (comm w') = q /\
    write_failed (trace w') = false /\
    write_inv N s w'.
Proof.
  intros HN Hinv Hio Hq Hwf.
  pose proof (write_done_write_inv N s false (WriteBuffer.nbytes b) w HN Hinv) as Hstep.
  destruct Hinv as [Hch Hby Hph Hpa].
  destruct Hph as [_ Hq' _ _|b' q' Hf Hq' Hp _|_ _ Hwf']; try congruence.
  rewrite Hq in Hq'. injection Hq' as <- <-.
  rewrite Hq in Hch. inversion Hch as [|? ? Hb _]; subst.
  destruct (remainder_wf N b HN Hb) as [Hrem Hlen].
  assert (Hnb : WriteBuffer.nbytes b = WriteBuffer.len b - WriteBuffer.pos b).
  { unfold WriteBuffer.nbytes. apply wrap_small. destruct Hb as (? & ? & ?). lia. }
  assert (Hn : 0 <= WriteBuffer.nbytes b <= Z.of_nat (length (remainder b))).
  { destruct Hb as (? & ? & ?). lia. }
  destruct (advance_spec N b (WriteBuffer.nbytes b) HN Hb Hn) as (Hz & _ & _).
  assert (Hz' : WriteBuffer.nbytes (WriteBuffer.advance (WriteBuffer.nbytes b) b) = 0)
    by lia.
  cbn [step] in *. revert Hstep. unfold write_done. unfold_ops.
  crush_world w. cbn in Hio, Hq, Hwf, Hp |- *. subst. cbn.
  destruct Hn as [Hn1 Hn2]. apply Z.leb_le in Hn1, Hn2.
  rewrite Hn1, Hn2. cbn. rewrite Hz'. cbn.
  destruct q as [|b1 q1]; cbn; intros Hinv; eexists;
    (split; [reflexivity|]); cbn; (split; [reflexivity|]);
    (split; [obs; exact Hwf|exact Hinv]).
Qed.

(** Whole completions, one per queued chunk, empty the queue. *)
Lemma drain (N R : Z) (s : list byte) :
  N < SIZE_MODULUS ->
  forall (q : list WriteBuffer.t) (w : World),
    write_inv N s w ->
    io_stopped w = false ->
    write_queue_ (comm w) = q ->
    write_failed (trace w) = false ->
    exists w',
      exec N R (whole_completions q) w = Done tt w' /\
      write_queue_ (comm w') = [] /\
      write_failed (trace w') = false /\
      write_inv N s w'.
Proof.
  intros HN. induction q as [|b q IH]; intros w Hinv Hio Hq Hwf.
  - exists w. cbn. auto.
  - destruct (write_done_whole N R s w b q HN Hinv Hio Hq Hwf)
      as (w1 & E1 & Hq1 & Hwf1 & Hinv1).
    assert (Hio1 : io_stopped w1 = false)
      by (rewrite (step_io_stopped N R _ w w1 E1); exact Hio).
    destruct (IH w1 Hinv1 Hio1 Hq1 Hwf1) as (w' & E & Hq' & Hwf' & Hinv').
    exists w'. cbn [whole_completions map exec]. unfold bind.
    rewrite E1. fold (whole_completions q). rewrite E. auto.
Qed.

Lemma opened_running (N R : Z) (f : nat) (ls : list label) (w : World) :
  exec N R ls (opened R f) = Done tt w -> io_stopped w = false.
Proof. intros E. now rewrite (exec_io_stopped N R ls _ _ E). Qed.
(** * The claims *)

(** ** Write pipeline *)

(** C1, as the spec states it, fails: a transport that completes a write of
    three bytes after two of them is passed the third byte a second time, so
    the byte strings passed to it, concatenated, are four bytes, one more
    than were sent. *)
Lemma C1_passed_strings_counterexample :
  ~ passed_strings_are_sent 4 4 0
      [CallSend [x61; x62; x63]; WriteDone false 2; WriteDone false 1].
Proof.
  intros H.
  assert (E : exists w,
             exec 4 4 [CallSend [x61; x62; x63]; WriteDone false 2; WriteDone false 1]
               (opened 4 0) = Done tt w /\
             write_queue_ (comm w) = [] /\
             concat (passed (trace w)) = [x61; x62; x63; x63]).
  { vm_compute. eexists. repeat split. }
  destruct E as (w & E & Hq & Hpassed).
  specialize (H w E Hq). rewrite Hpassed in H. discriminate H.
Qed.

(** C1, amended: for every chunk size [N > 0] and every schedule of sends
    and completions on an open channel, the bytes the transport reported
    written (of each string passed to a write that completed without error,
    the first [bytes_transferred]), concatenated in completion order and
    followed by the unsent remainders of the queued chunks, are the bytes
    sent [b1 ++ b2 ++ ...].  Whenever the transport has completed every
    write it was given and none has failed, the write queue is empty, so
    the bytes reported written are the bytes sent, and so are the strings
    passed to the transport when every completion reported the whole string
    it was passed.  The pipeline gets there: as long as no write has
    failed, one whole completion per queued chunk empties the queue, and
    then everything sent has been reported written.  No schedule aborts or
    runs out of fuel. *)
Theorem C1_transferred_bytes_are_sent (N R : Z) (f : nat) (ls : list label) :
  0 < N < SIZE_MODULUS ->
  match exec N R ls (opened R f) with
  | Done _ w =>
      transferred (trace w) ++ queued (write_queue_ (comm w)) = sent ls /\
      (write_queue_ (comm w) = [] -> transferred (trace w) = sent ls) /\
      (write_queue_ (comm w) = [] ->
       whole_writes (trace w) = true -> write_failed (trace w) = false ->
       concat (passed (trace w)) = sent ls) /\
      (pending_writes w = [] -> write_failed (trace w) = false ->
       write_queue_ (comm w) = [] /\ transferred (trace w) = sent ls) /\
      (write_failed (trace w) = false ->
       exists w',
         exec N R (whole_completions (write_queue_ (comm w))) w = Done tt w' /\
         write_queue_ (comm w') = [] /\
         pending_writes w' = [] /\
         write_in_progress_ (comm w') = false /\
         transferred (trace w') = sent ls)
  | Fail fl => fl = Disabled
  end.
Proof.
  intros HN. pose proof (exec_opened N R f ls HN) as H.
  destruct (exec N R ls (opened R f)) as [[] w|fl] eqn:E; [|exact H].
  destruct H as [Hinv _].
  pose proof Hinv as [Hch Hby Hph Hpa].
  assert (Hempty : write_queue_ (comm w) = [] -> transferred (trace w) = sent ls).
  { intros Hq. rewrite Hq in Hby. cbn in Hby. now rewrite app_nil_r in Hby. }
  split; [exact Hby|]. split; [exact Hempty|]. split; [|split].
  - intros Hq Hw Hf. rewrite (Hpa Hw Hf), (Hempty Hq).
    destruct Hph as [_ _ Hp _|b q _ Hq' _ _|_ _ Hf']; [|congruence..].
    rewrite Hp. cbn. apply app_nil_r.
  - intros Hp Hf.
    assert (Hq : write_queue_ (comm w) = []).
    { destruct Hph as [_ Hq _ _|b q _ _ Hp' _|_ _ Hf']; [exact Hq|congruence..]. }
    split; [exact Hq|exact (Hempty Hq)].
  - intros Hf.
    destruct (drain N R (sent ls) (proj2 HN) (write_queue_ (comm w)) w Hinv
                (opened_running N R f ls w E) eq_refl Hf)
      as (w' & E' & Hq' & Hf' & [_ Hby' Hph' _]).
    exists w'. split; [exact E'|]. split; [exact Hq'|].
    rewrite Hq' in Hby'. cbn in Hby'. rewrite app_nil_r in Hby'.
    destruct Hph' as [Hfl _ Hp _|b q _ Hqb _ _|_ _ Hfd]; [auto|congruence..].
Qed.

Lemma C1_transferred_bytes_witness :
  0 < 4 < SIZE_MODULUS /\
  match
    exec 4 4 [CallSend [x61; x62; x63]; WriteDone false 2; WriteDone false 1]
      (opened 4 0)
  with
  | Done _ w =>
      transferred (trace w) = [x61; x62; x63] /\
      write_queue_ (comm w) = [] /\
      pending_writes w = []
  | Fail fl => fl = Disabled
  end.
Proof.
  split; [split; reflexivity|].
  pose proof (C1_transferred_bytes_are_sent 4 4 0
                [CallSend [x61; x62; x63]; WriteDone false 2; WriteDone false 1]
                (conj eq_refl eq_refl)) as H.
  assert (E : exists w,
             exec 4 4 [CallSend [x61; x62; x63]; WriteDone false 2; WriteDone false 1]
               (opened 4 0) = Done tt w /\
             pending_writes w = [] /\ write_failed (trace w) = false)
    by (vm_compute; eexists; repeat split).
  destruct E as (w & E & Hp & Hf). rewrite E in H |- *.
  destruct H as (_ & _ & _ & H & _).
  destruct (H Hp Hf) as (Hq & Ht).
  repeat split; assumption.
Defined.

Lemma send_queue (N : Z) (bytes : list byte) (cs : list WriteBuffer.t) (w : World) :
  loop_chunks N (S (length bytes)) bytes (Z.of_nat (length bytes)) 0 = Some cs ->
  exists w', send N bytes w = Done tt w' /\
             write_queue_ (comm w') = write_queue_ (comm w) ++ cs.
Proof.
  intros Hcs. unfold send, send_bytes, bind, lock, emit.
  rewrite send_bytes_loop_chunks, Hcs. clear Hcs.
  unfold enqueue. unfold_ops. crush_world w. cbn.
  destruct write_in_progress_0; cbn; [eexists; split; reflexivity|].
  destruct (write_queue_0 ++ cs) as [|b q] eqn:E; cbn;
    eexists; (split; [reflexivity|]); cbn; congruence.
Qed.

(** C2: for every maximum chunk size [N > 0], a single send of [M > N]
    bytes returns and appends to the write queue exactly [ceil (M / N)]
    chunks, each with its cursor at the start and of size at most [N], all
    but possibly the last of size exactly [N], whose payloads in queue order
    make up the bytes sent.  [M + N] is a [size_t]. *)
Theorem C2_send_enqueues_chunks (N : Z) (bytes : list byte) (w : World) :
  0 < N ->
  N < Z.of_nat (length bytes) ->
  Z.of_nat (length bytes) + N <= SIZE_MODULUS ->
  exists (cs : list WriteBuffer.t) (w' : World),
    send N bytes w = Done tt w' /\
    write_queue_ (comm w') = write_queue_ (comm w) ++ cs /\
    Z.of_nat (length cs) = ceil_div (Z.of_nat (length bytes)) N /\
    (Z.of_nat (length cs) - 1) * N < Z.of_nat (length bytes) <= Z.of_nat (length cs) * N /\
    Forall (fun c => WriteBuffer.pos c = 0 /\
                     0 < WriteBuffer.len c <= N /\
                     Z.of_nat (length (WriteBuffer.data c)) = WriteBuffer.len c) cs /\
    Forall (fun c => WriteBuffer.len c = N) (removelast cs) /\
    concat (map WriteBuffer.data cs) = bytes.
Proof.
  intros HN HM Hsize.
  destruct (send_chunks N bytes HN) as (cs & Hcs & Hlen & Hfresh & Hfull & Hcat).
  { unfold sendable. now apply Z.leb_le. }
  destruct (send_queue N bytes cs w Hcs) as (w' & E & Hq).
  exists cs, w'. repeat split; try assumption.
  - rewrite Hlen. unfold ceil_div.
    pose proof (Z.mul_div_le (Z.of_nat (length bytes) + N - 1) N HN).
    pose proof (Z.mod_pos_bound (Z.of_nat (length bytes) + N - 1) N HN).
    pose proof (Z.div_mod (Z.of_nat (length bytes) + N - 1) N).
    nia.
  - rewrite Hlen. unfold ceil_div.
    pose proof (Z.mod_pos_bound (Z.of_nat (length bytes) + N - 1) N HN).
    pose proof (Z.div_mod (Z.of_nat (length bytes) + N - 1) N).
    nia.
  - now rewrite <- flat_map_concat_map.
Qed.

Lemma C2_send_enqueues_chunks_witness :
  exists (cs : list WriteBuffer.t) (w' : World),
    send 2 [x61; x62; x63; x64; x65] (opened 4 0) = Done tt w' /\
    write_queue_ (comm w') = write_queue_ (comm (opened 4 0)) ++ cs /\
    Z.of_nat (length cs) = ceil_div 5 2 /\
    (Z.of_nat (length cs) - 1) * 2 < 5 <= Z.of_nat (length cs) * 2 /\
    Forall (fun c => WriteBuffer.pos c = 0 /\
                     0 < WriteBuffer.len c <= 2 /\
                     Z.of_nat (length (WriteBuffer.data c)) = WriteBuffer.len c) cs /\
    Forall (fun c => WriteBuffer.len c = 2) (removelast cs) /\
    concat (map WriteBuffer.data cs) = [x61; x62; x63; x64; x65].
Proof.
  apply (C2_send_enqueues_chunks 2 [x61; x62; x63; x64; x65] (opened 4 0)).
  - reflexivity.
  - reflexivity.
  - vm_compute. discriminate.
Defined.

Example send_five_by_two :
  exists w',
    send 2 [x61; x62; x63; x64; x65] (opened 4 0) = Done tt w' /\
    write_queue_ (comm w') =
      [WriteBuffer.mk [x61; x62] 2 0; WriteBuffer.mk [x63; x64] 2 0;
       WriteBuffer.mk [x65] 1 0] /\
    pending_writes w' = [[x61; x62]].
Proof. vm_compute. eexists. repeat split. Qed.

(** C3: in every state an open channel reaches by sends, completions and
    steps of the Callback Thread, at most one write operation is pending on
    the transport, and one is pending only while the in-flight flag is set;
    as long as no write has failed, whenever the queue is not empty the
    remainder of its front chunk is pending, so the kick of the completion
    handler never leaves queued bytes behind.  A kick entered from
    [send_bytes] ([check_write_state = true]) changes nothing when the
    in-flight flag is set.  A kick entered from the write-completion handler
    ([check_write_state = false]) looks at the queue whatever the flag
    says: it passes the remainder of the front chunk to the transport when
    there is one, and only takes and releases the lock when the queue is
    empty.  The handler of a successful completion does not depend on the
    flag it finds: after taking the count off the front chunk it passes on
    what is left of that chunk, or the next chunk when the front one is
    fully sent, and clears the flag only when the queue has become empty. *)
Theorem C3_one_write_in_flight (N R : Z) (f : nat) (ls : list label) :
  0 < N < SIZE_MODULUS ->
  match exec N R ls (opened R f) with
  | Done _ w =>
      (length (pending_writes w) <= 1)%nat /\
      (pending_writes w <> [] -> write_in_progress_ (comm w) = true) /\
      (write_failed (trace w) = false ->
       forall b q,
         write_queue_ (comm w) = b :: q ->
         pending_writes w = [remainder b] /\ write_in_progress_ (comm w) = true)
  | Fail fl => fl = Disabled
  end /\
  (forall w, write_in_progress_ (comm w) = true -> async_write true w = Done tt w) /\
  (forall w b q,
      write_queue_ (comm w) = b :: q ->
      exists w',
        async_write false w = Done tt w' /\
        pending_writes w' = pending_writes w ++ [remainder b] /\
        write_in_progress_ (comm w') = true /\
        write_queue_ (comm w') = write_queue_ (comm w) /\
        trace w' = trace w ++ [Lock write_mutex; Store Lwrite_in_progress;
                               DoAsyncWrite (remainder b); Unlock write_mutex]) /\
  (forall w,
      write_queue_ (comm w) = [] ->
      async_write false w
      = Done tt (set_trace (trace w ++ [Lock write_mutex; Unlock write_mutex]) w)) /\
  (forall w n v,
      async_write_end false n (set_comm (set_write_in_progress_ v (comm w)) w)
      = async_write_end false n w) /\
  (forall w b q n,
      write_queue_ (comm w) = b :: q ->
      0 <= WriteBuffer.pos b < WriteBuffer.len b /\
      WriteBuffer.len b <= N /\
      Z.of_nat (length (WriteBuffer.data b)) = WriteBuffer.len b ->
      0 <= n <= WriteBuffer.len b - WriteBuffer.pos b ->
      exists w',
        async_write_end false n w = Done tt w' /\
        (n < WriteBuffer.len b - WriteBuffer.pos b ->
         write_queue_ (comm w') = WriteBuffer.advance n b :: q /\
         pending_writes w'
         = pending_writes w ++ [skipn (Z.to_nat n) (remainder b)] /\
         write_in_progress_ (comm w') = true) /\
        (n = WriteBuffer.len b - WriteBuffer.pos b ->
         write_queue_ (comm w') = q /\
         match q with
         | [] => pending_writes w' = pending_writes w /\
                 write_in_progress_ (comm w') = false
         | b' :: _ => pending_writes w' = pending_writes w ++ [remainder b'] /\
                      write_in_progress_ (comm w') = true
         end)).
Proof.
  intros HN. split; [|split; [|split; [|split; [|split]]]].
  - pose proof (exec_opened N R f ls HN) as H.
    destruct (exec N R ls (opened R f)) as [[] w|fl]; [|exact H].
    destruct H as [[_ _ Hph _] _].
    destruct Hph as [_ Hq Hp _|b q Hf Hq Hp _|_ Hp Hwf]; rewrite Hp; cbn;
      (split; [lia|split; [congruence|]]).
    + intros _ b q Hq'. congruence.
    + intros _ b' q' Hq'. rewrite Hq in Hq'. injection Hq' as <- <-. auto.
    + intros Hwf'. congruence.
  - intros w Hf. unfold_ops. now rewrite Hf.
  - intros w b q Hq. unfold_ops. crush_world w. cbn in *. subst. cbn.
    eexists. repeat split. cbn. now rewrite <- !app_assoc.
  - intros w Hq. unfold_ops. crush_world w. cbn in *. subst. cbn.
    now rewrite <- !app_assoc.
  - intros w n v. apply write_end_ignores_flag.
  - intros w b q n Hq Hb Hn.
    exact (write_end_kick N w b q n (proj2 HN) Hq Hb Hn).
Qed.

Lemma C3_one_write_in_flight_witness :
  0 < 4 < SIZE_MODULUS /\
  match
    exec 4 4 [CallSend [x61; x62; x63; x64; x65]; CallSend [x66];
              WriteDone false 3; WriteDone false 1] (opened 4 0)
  with
  | Done _ w =>
      (length (pending_writes w) <= 1)%nat /\
      (pending_writes w <> [] -> write_in_progress_ (comm w) = true) /\
      (write_failed (trace w) = false ->
       forall b q,
         write_queue_ (comm w) = b :: q ->
         pending_writes w = [remainder b] /\ write_in_progress_ (comm w) = true)
  | Fail fl => fl = Disabled
  end.
Proof.
  split; [split; reflexivity|].
  pose proof (C3_one_write_in_flight 4 4 0
                [CallSend [x61; x62; x63; x64; x65]; CallSend [x66];
                 WriteDone false 3; WriteDone false 1] (conj eq_refl eq_refl)) as H.
  destruct H as [H _]. exact H.
Defined.

Example two_sends_two_completions :
  exists w,
    exec 4 4 [CallSend [x61; x62; x63; x64; x65]; CallSend [x66];
              WriteDone false 3; WriteDone false 1] (opened 4 0) = Done tt w /\
    pending_writes w = [[x65]] /\
    passed (trace w) = [[x61; x62; x63; x64]; [x64]; [x65]] /\
    transferred (trace w) = [x61; x62; x63; x64].
Proof. vm_compute. eexists. repeat split. Qed.

(** ** Callback dispatch *)

Lemma invoke_turn (N R : Z) (w : World) (b : ReadBuffer.t)
  (rest : list ReadBuffer.t) (id : nat) :
  callback_at w = CbDispatching ->
  local_queue w = b :: rest ->
  receive_callback_ (comm w) = callable id ->
  step N R CallbackInvoke w
  = Done tt
      (set_local_queue rest
         (set_trace
            (trace w ++ [ReceiveCallback id (ReadBuffer.data b) (ReadBuffer.len b)])
            w)).
Proof.
  intros Hat Hlq Hcb. cbn [step].
  unfold when_callback_at, process_callbacks_invoke. unfold_ops.
  rewrite Hat, Hlq. cbn. rewrite Hcb. reflexivity.
Qed.

Lemma invoke_last (N R : Z) (w : World) :
  callback_at w = CbDispatching ->
  local_queue w = [] ->
  step N R CallbackInvoke w = Done tt (set_callback_at CbWaiting w).
Proof.
  intros Hat Hlq. cbn [step].
  unfold when_callback_at, process_callbacks_invoke.
  rewrite Hat, Hlq. reflexivity.
Qed.

(** The inner loop of [process_callbacks] runs to its end: one turn per
    chunk of the local queue and the final test lead back to the wait. *)
Lemma invoke_loop (N R : Z) :
  forall (lq : list ReadBuffer.t) (w : World),
    callback_at w = CbDispatching ->
    local_queue w = lq ->
    receive_callback_ (comm w) <> empty_function ->
    exists w',
      exec N R (repeat CallbackInvoke (S (length lq))) w = Done tt w' /\
      callback_at w' = CbWaiting /\
      local_queue w' = [] /\
      comm w' = comm w /\
      delivered (trace w') = delivered (trace w) ++ map ReadBuffer.payload lq /\
      arrived (trace w') = arrived (trace w).
Proof.
  induction lq as [|b rest IH]; intros w Hat Hlq Hcb.
  - change (repeat CallbackInvoke (S (length (@nil ReadBuffer.t))))
      with [CallbackInvoke].
    cbn [exec]. unfold bind. rewrite (invoke_last N R w Hat Hlq).
    eexists. split; [reflexivity|]. cbn. repeat split; auto.
    now rewrite app_nil_r.
  - change (repeat CallbackInvoke (S (length (b :: rest))))
      with (CallbackInvoke :: repeat CallbackInvoke (S (length rest))).
    cbn [exec]. unfold bind at 1.
    destruct (receive_callback_ (comm w)) as [|id] eqn:Hid; [congruence|].
    rewrite (invoke_turn N R w b rest id Hat Hlq Hid).
    match goal with
    | |- exists w', exec _ _ _ ?w1 = _ /\ _ =>
        destruct (IH w1) as (w' & E & H1 & H2 & H3 & H4 & H5);
        [exact Hat|reflexivity|cbn; congruence|]
    end.
    exists w'. rewrite E. cbn in H3, H4, H5.
    repeat split; auto.
    + rewrite H4. obs. unfold ReadBuffer.payload. now rewrite <- app_assoc.
    + rewrite H5. obs. reflexivity.
Qed.

Lemma wake_for_data (N R : Z) (w : World) :
  callback_at w = CbWaiting ->
  new_data_ (comm w) = true ->
  callback_shutdown_ (comm w) = false ->
  local_queue w = [] ->
  exists w',
    step N R CallbackWake w = Done tt w' /\
    local_queue w' = read_queue_ (comm w) /\
    read_queue_ (comm w') = [] /\
    new_data_ (comm w') = false /\
    callback_at w' = CbDispatching /\
    trace w' = trace w ++ [Lock callback_mutex; Store Lread_queue;
                           Store Lnew_data; Unlock callback_mutex] /\
    receive_callback_ (comm w') = receive_callback_ (comm w).
Proof.
  intros Hat Hnd Hrun Hl. cbn [step]. unfold when_callback_at. unfold_ops.
  crush_world w. cbn in Hat, Hnd, Hrun, Hl. subst. cbn.
  eexists. repeat split. cbn. now rewrite <- !app_assoc.
Qed.

(** C4: on an open channel with a callback registered, whatever the
    schedule, the payloads the callback was invoked with, followed by the
    payloads of the chunks in the local and in the read queue, are the
    payloads of the successful read completions in completion order: every
    chunk is handed to the callback at most once, in arrival order, byte for
    byte, and exactly once as soon as the Callback Thread is back at its
    wait with no new data flagged.  The callback is never invoked with
    [callback_mutex_] held.  A wake-up for new data takes the lock, moves
    the whole read queue to the local list, clears the new-data flag and
    releases the lock; from there the loop invokes the callback once per
    chunk and returns to the wait, having delivered everything that
    arrived. *)
Theorem C4_callback_dispatch (N R : Z) (f : nat) (ls : list label) :
  0 < N < SIZE_MODULUS ->
  match exec N R ls (opened R f) with
  | Done _ w =>
      delivered (trace w)
        ++ map ReadBuffer.payload (local_queue w ++ read_queue_ (comm w))
      = arrived (trace w) /\
      (callback_at w = CbWaiting -> new_data_ (comm w) = false ->
       delivered (trace w) = arrived (trace w)) /\
      calls_unlocked callback_mutex 0 (trace w) = true /\
      (callback_at w = CbWaiting -> new_data_ (comm w) = true ->
       exists w',
         step N R CallbackWake w = Done tt w' /\
         local_queue w' = read_queue_ (comm w) /\
         read_queue_ (comm w') = [] /\
         new_data_ (comm w') = false /\
         callback_at w' = CbDispatching /\
         trace w' = trace w ++ [Lock callback_mutex; Store Lread_queue;
                                Store Lnew_data; Unlock callback_mutex]) /\
      (callback_at w = CbWaiting -> new_data_ (comm w) = true ->
       exists w',
         exec N R (CallbackWake
                     :: repeat CallbackInvoke (S (length (read_queue_ (comm w))))) w
         = Done tt w' /\
         callback_at w' = CbWaiting /\
         new_data_ (comm w') = false /\
         delivered (trace w') = arrived (trace w))
  | Fail fl => fl = Disabled
  end.
Proof.
  intros HN. pose proof (exec_opened N R f ls HN) as H.
  destruct (exec N R ls (opened R f)) as [[] w|fl]; [|exact H].
  destruct H as [_ [Hp Hn Hl Hr Hrun Hfree Hunl]].
  assert (Hwake : callback_at w = CbWaiting -> new_data_ (comm w) = true ->
    exists w',
      step N R CallbackWake w = Done tt w' /\
      local_queue w' = read_queue_ (comm w) /\
      read_queue_ (comm w') = [] /\
      new_data_ (comm w') = false /\
      callback_at w' = CbDispatching /\
      trace w' = trace w ++ [Lock callback_mutex; Store Lread_queue;
                             Store Lnew_data; Unlock callback_mutex] /\
      receive_callback_ (comm w') = receive_callback_ (comm w)).
  { intros Hat Hnd. apply wake_for_data; auto.
    apply Hl. rewrite Hat. discriminate. }
  split; [exact Hp|]. split; [|split; [exact Hunl|split]].
  - intros Hat Hnd. rewrite Hl, (Hn Hnd) in Hp by (rewrite Hat; discriminate).
    cbn in Hp. now rewrite app_nil_r in Hp.
  - intros Hat Hnd. destruct (Hwake Hat Hnd) as (w' & ? & ? & ? & ? & ? & ? & _).
    exists w'. repeat split; assumption.
  - intros Hat Hnd.
    destruct (Hwake Hat Hnd) as (w1 & E1 & Hlq & Hrq & Hnd1 & Hat1 & Htr & Hcb).
    destruct (invoke_loop N R (read_queue_ (comm w)) w1 Hat1 Hlq)
      as (w' & E & H1 & H2 & H3 & H4 & H5); [congruence|].
    exists w'. cbn [exec]. unfold bind at 1. rewrite E1, E.
    repeat split; [exact H1|congruence|].
    rewrite H4, Htr. obs. rewrite <- Hp, Hl by (rewrite Hat; discriminate).
    reflexivity.
Qed.

Lemma C4_callback_dispatch_witness :
  0 < 4 < SIZE_MODULUS /\
  match
    exec 4 4 [ReadDone false [x61; x62]; ReadDone false [x63]; CallbackWake;
              ReadDone false [x64]; CallbackInvoke; CallbackInvoke; CallbackInvoke]
      (opened 4 0)
  with
  | Done _ w =>
      delivered (trace w)
        ++ map ReadBuffer.payload (local_queue w ++ read_queue_ (comm w))
      = arrived (trace w) /\
      (callback_at w = CbWaiting -> new_data_ (comm w) = false ->
       delivered (trace w) = arrived (trace w)) /\
      calls_unlocked callback_mutex 0 (trace w) = true /\
      (callback_at w = CbWaiting -> new_data_ (comm w) = true ->
       exists w',
         step 4 4 CallbackWake w = Done tt w' /\
         local_queue w' = read_queue_ (comm w) /\
         read_queue_ (comm w') = [] /\
         new_data_ (comm w') = false /\
         callback_at w' = CbDispatching /\
         trace w' = trace w ++ [Lock callback_mutex; Store Lread_queue;
                                Store Lnew_data; Unlock callback_mutex]) /\
      (callback_at w = CbWaiting -> new_data_ (comm w) = true ->
       exists w',
         exec 4 4 (CallbackWake
                     :: repeat CallbackInvoke (S (length (read_queue_ (comm w))))) w
         = Done tt w' /\
         callback_at w' = CbWaiting /\
         new_data_ (comm w') = false /\
         delivered (trace w') = arrived (trace w))
  | Fail fl => fl = Disabled
  end.
Proof.
  split; [split; reflexivity|].
  exact (C4_callback_dispatch 4 4 0
           [ReadDone false [x61; x62]; ReadDone false [x63]; CallbackWake;
            ReadDone false [x64]; CallbackInvoke; CallbackInvoke; CallbackInvoke]
           (conj eq_refl eq_refl)).
Defined.

Example reads_and_dispatch :
  exists w,
    exec 4 4 [ReadDone false [x61; x62]; ReadDone false [x63]; CallbackWake;
              ReadDone false [x64]; CallbackInvoke; CallbackInvoke; CallbackInvoke]
      (opened 4 0) = Done tt w /\
    arrived (trace w) = [[x61; x62]; [x63]; [x64]] /\
    delivered (trace w) = [[x61; x62]; [x63]] /\
    map ReadBuffer.payload (read_queue_ (comm w)) = [[x64]] /\
    callback_at w = CbWaiting /\ new_data_ (comm w) = true.
Proof. vm_compute. eexists. repeat split. Qed.

(** ** Shutdown *)

Example closing_by_close (R : Z) (f : nat) :
  (io_service_stop ;; do_close) (opened R f) = Done tt (closing R f).
Proof. reflexivity. Qed.

(** C5, as the spec states it, fails: woken by a read error, the Supervisor
    sets callback-shutdown-requested and notifies the Callback Thread before
    it joins the I/O Loop Thread, not after. *)
Lemma C5_shutdown_order_counterexample :
  ~ shutdown_in_spec_order 4 4 0 [ReadDone true []].
Proof.
  intros H.
  assert (E : exists w,
             exec 4 4 [ReadDone true []] (opened 4 0) = Done tt w /\
             error_ (comm w) || shutdown_ (comm w) = true /\
             spec_shutdown_order (performed run_stop w) = false).
  { vm_compute. eexists. repeat split. }
  destruct E as (w & E & Hflag & Horder).
  specialize (H w E Hflag). rewrite Horder in H. discriminate H.
Qed.

(** C5, amended: once error or shutdown-requested is set, the Supervisor
    returns from its wait and performs, in this order: stop the event loop;
    set callback-shutdown-requested under the callback lock and wake the
    Callback Thread; join the I/O Loop Thread if it is joinable; join the
    Callback Thread if it is joinable; only then does [run] return and the
    Supervisor thread exit.  Before either flag is set it stays in its
    wait. *)
Theorem C5_shutdown_order (w : World) :
  (error_ (comm w) || shutdown_ (comm w) = true ->
   exists w',
     run_stop w = Done tt w' /\
     trace w' =
       trace w
         ++ [Lock main_mutex; Unlock main_mutex; IoServiceStop;
             Lock callback_mutex; Store Lcallback_shutdown; Unlock callback_mutex;
             NotifyOne callback_cv]
         ++ (if joinable (io_thread_ (comm w)) then [ThreadJoin IoThread] else [])
         ++ (if joinable (callback_thread_ (comm w))
             then [ThreadJoin CallbackThread] else []) /\
     io_stopped w' = true /\
     callback_shutdown_ (comm w') = true /\
     joinable (io_thread_ (comm w')) = false /\
     joinable (callback_thread_ (comm w')) = false) /\
  (error_ (comm w) || shutdown_ (comm w) = false -> run_stop w = Fail Disabled).
Proof.
  split; intros Hp; unfold run_stop, wait_return, join, io_service_stop; unfold_ops;
    crush_world w; cbn in Hp |- *; rewrite Hp; cbn; [|reflexivity].
  destruct io_thread_0, callback_thread_0; cbn;
    eexists; repeat split; cbn; now rewrite <- !app_assoc.
Qed.

Lemma C5_shutdown_order_witness :
  exists w',
    run_stop (errored (opened 4 0)) = Done tt w' /\
    performed run_stop (errored (opened 4 0)) =
      [Lock main_mutex; Unlock main_mutex; IoServiceStop;
       Lock callback_mutex; Store Lcallback_shutdown; Unlock callback_mutex;
       NotifyOne callback_cv; ThreadJoin IoThread; ThreadJoin CallbackThread] /\
    io_stopped w' = true.
Proof.
  pose proof (C5_shutdown_order (errored (opened 4 0))) as H.
  destruct H as (H & _).
  destruct (H eq_refl) as (w' & E & _ & Hs & _).
  exists w'. split; [exact E|]. split; [vm_compute; reflexivity|exact Hs].
Defined.

(** ** Read completion *)

(** C6, as the spec states it, fails: once the transport is closed, the
    handler of a successful read completion still queues the chunk and wakes
    the Callback Thread, but [async_read] returns at its [is_open()] test
    and no read is armed. *)
Lemma C6_rearm_counterexample : ~ rearms_after_read (closing 4 0) 1.
Proof.
  intros (w' & E & Ht).
  vm_compute in E. injection E as <-.
  vm_compute in Ht. discriminate Ht.
Qed.

(** C6, amended: on every successful read completion the handler performs,
    in this order: take the callback lock; append to the read queue a new
    chunk that holds a copy of the first [bytes_transferred] bytes of the
    scratch buffer; set the new-data flag; release the lock; wake the
    Callback Thread; and only then, if the transport is still open, arm the
    next read (if it is not, no read is armed).  It invokes no callback and
    leaves the scratch buffer as it is; both stores happen under the
    callback lock.  The chunk queued for the bytes the transport received
    holds exactly these bytes. *)
Theorem C6_read_completion_order (R : Z) (w : World) (bytes_transferred : Z) :
  (exists w',
     async_read_end false bytes_transferred w = Done tt w' /\
     trace w' =
       trace w
         ++ [Lock callback_mutex; Store Lread_queue; Store Lnew_data;
             Unlock callback_mutex; NotifyOne callback_cv]
         ++ (if transport_open w then [DoAsyncRead] else []) /\
     read_queue_ (comm w') =
       read_queue_ (comm w)
         ++ [ReadBuffer.new (read_buffer_ (comm w)) bytes_transferred] /\
     new_data_ (comm w') = true /\
     read_buffer_ (comm w') = read_buffer_ (comm w) /\
     pending_reads w' =
       (if transport_open w then S (pending_reads w) else pending_reads w) /\
     stores_guarded callback_mutex Lread_queue 0
       (performed (async_read_end false bytes_transferred) w) = true /\
     stores_guarded callback_mutex Lnew_data 0
       (performed (async_read_end false bytes_transferred) w) = true) /\
  (forall received w',
     read_done R false received w = Done tt w' ->
     exists chunk,
       read_queue_ (comm w') = read_queue_ (comm w) ++ [chunk] /\
       ReadBuffer.payload chunk = received).
Proof.
  split.
  - unfold performed. unfold_ops. crush_world w. cbn.
    destruct transport_open0; cbn; eexists; repeat split; cbn;
      rewrite <- ?app_assoc; cbn; try reflexivity.
    all: rewrite skipn_app, skipn_all, Nat.sub_diag; reflexivity.
  - intros received w'. unfold read_done. unfold_ops. crush_world w. cbn.
    destruct pending_reads0 as [|k]; [discriminate|].
    destruct (negb io_stopped0 && _); [|discriminate].
    destruct transport_open0; cbn; intros [= <-]; cbn;
      eexists; (split; [reflexivity|apply payload_new]).
Qed.

Lemma C6_read_completion_order_witness :
  exists w' chunk,
    read_done 4 false [x61; x62] (opened 4 0) = Done tt w' /\
    read_queue_ (comm w') = read_queue_ (comm (opened 4 0)) ++ [chunk] /\
    ReadBuffer.payload chunk = [x61; x62].
Proof.
  assert (E : exists w', read_done 4 false [x61; x62] (opened 4 0) = Done tt w')
    by (vm_compute; eexists; reflexivity).
  destruct E as (w' & E).
  pose proof (C6_read_completion_order 4 (opened 4 0) 2) as H.
  destruct H as (_ & H).
  destruct (H [x61; x62] w' E) as (chunk & Hq & Hp).
  exists w', chunk. auto.
Defined.

Example read_completion_on_open_channel :
  performed (async_read_end false 2) (opened 4 0) =
    [Lock callback_mutex; Store Lread_queue; Store Lnew_data;
     Unlock callback_mutex; NotifyOne callback_cv; DoAsyncRead].
Proof. vm_compute. reflexivity. Qed.

(** ** Errors *)

Lemma passed_dead_step (N R : Z) (l : label) (w w' : World) :
  write_in_progress_ (comm w) = true ->
  pending_writes w = [] ->
  step N R l w = Done tt w' ->
  write_in_progress_ (comm w') = true /\
  pending_writes w' = [] /\
  passed (trace w') = passed (trace w) /\
  exists cs, write_queue_ (comm w') = write_queue_ (comm w) ++ cs.
Proof.
  intros Hf Hp.
  destruct l as [bytes|error n|error received| |]; cbn [step].
  - destruct (sendable N bytes); [|discriminate].
    unfold send, send_bytes, bind, lock, emit.
    rewrite send_bytes_loop_chunks.
    destruct (loop_chunks _ _ _ _ _) as [cs|]; [|discriminate].
    unfold enqueue. unfold_ops. crush_world w. cbn in *. subst. cbn.
    intros [= <-]. cbn. repeat split; [obs; reflexivity|]. now exists cs.
  - unfold write_done. rewrite Hp. discriminate.
  - unfold read_done. unfold_ops. crush_world w. cbn in *. subst.
    destruct pending_reads0 as [|k]; [discriminate|].
    destruct (negb io_stopped0 && _); [|discriminate].
    destruct error, transport_open0; cbn; intros [= <-]; cbn;
      (repeat split; [obs; reflexivity|exists []; now rewrite app_nil_r]).
  - unfold when_callback_at. destruct (callback_at_eqb _ _); [|discriminate].
    unfold_ops. crush_world w. cbn in *. subst.
    destruct (new_data_0 || callback_shutdown_0); [|discriminate]. cbn.
    destruct callback_shutdown_0; cbn; intros [= <-]; cbn;
      (repeat split; [obs; reflexivity|exists []; now rewrite app_nil_r]).
  - unfold when_callback_at. destruct (callback_at_eqb _ _); [|discriminate].
    unfold_ops. crush_world w. cbn in *. subst.
    destruct local_queue0 as [|b rest]; cbn.
    + intros [= <-]; cbn.
      repeat split. exists []; now rewrite app_nil_r.
    + destruct receive_callback_0; cbn; [discriminate|].
      intros [= <-]; cbn.
      repeat split; [obs; reflexivity|exists []; now rewrite app_nil_r].
Qed.

Lemma passed_dead_exec (N R : Z) (ls : list label) :
  forall (w w' : World),
    write_in_progress_ (comm w) = true ->
    pending_writes w = [] ->
    exec N R ls w = Done tt w' ->
    pending_writes w' = [] /\
    passed (trace w') = passed (trace w) /\
    exists cs, write_queue_ (comm w') = write_queue_ (comm w) ++ cs.
Proof.
  induction ls as [|l ls IH]; intros w w' Hf Hp.
  - cbn. intros [= <-]. repeat split; auto. exists []; now rewrite app_nil_r.
  - cbn [exec]. unfold bind.
    destruct (step N R l w) as [[] w1|fl] eqn:E; [|discriminate].
    destruct (passed_dead_step N R l w w1 Hf Hp E) as (Hf1 & Hp1 & Hpa1 & cs1 & Hq1).
    intros E'. destruct (IH w1 w' Hf1 Hp1 E') as (Hp' & Hpa' & cs' & Hq').
    repeat split; [exact Hp'|congruence|].
    exists (cs1 ++ cs'). rewrite Hq', Hq1. now rewrite app_assoc.
Qed.

(** C7: the handler of a read or write completion that reports an error
    logs it, sets the error flag under [main_mutex_], notifies the
    Supervisor and returns: the world it leaves is [errored], in which the
    write queue, the pending writes and the pending reads are as before, so
    no read is armed, the write queue is not modified and no write is
    issued, whatever the queue holds.  On an open channel, once a write has
    failed no write is pending and no schedule ever passes another byte
    string to the transport, while the write queue keeps what it held and
    what is sent later. *)
Theorem C7_error_completion (N R : Z) (f : nat) (ls : list label) :
  (forall w n, async_read_end true n w = Done tt (errored w)) /\
  (forall w n, async_write_end true n w = Done tt (errored w)) /\
  (forall w,
     error_ (comm (errored w)) = true /\
     trace (errored w) = trace w ++ [Cerr; Lock main_mutex; Store Lerror;
                                     Unlock main_mutex; NotifyOne main_cv] /\
     stores_guarded main_mutex Lerror 0
       [Cerr; Lock main_mutex; Store Lerror; Unlock main_mutex; NotifyOne main_cv]
     = true /\
     write_queue_ (comm (errored w)) = write_queue_ (comm w) /\
     pending_writes (errored w) = pending_writes w /\
     pending_reads (errored w) = pending_reads w /\
     passed (trace (errored w)) = passed (trace w)) /\
  (0 < N < SIZE_MODULUS ->
   match exec N R ls (opened R f) with
   | Done _ w =>
       write_failed (trace w) = true ->
       pending_writes w = [] /\
       forall ls' w',
         exec N R ls' w = Done tt w' ->
         pending_writes w' = [] /\
         passed (trace w') = passed (trace w) /\
         exists cs, write_queue_ (comm w') = write_queue_ (comm w) ++ cs
   | Fail fl => fl = Disabled
   end).
Proof.
  split; [|split; [|split]].
  - intros w n. unfold errored. unfold_ops. crush_world w. cbn.
    now rewrite <- !app_assoc.
  - intros w n. unfold errored. unfold_ops. crush_world w. cbn.
    now rewrite <- !app_assoc.
  - intros w. unfold errored. cbn. repeat split. obs. reflexivity.
  - intros HN. pose proof (exec_opened N R f ls HN) as H.
    destruct (exec N R ls (opened R f)) as [[] w|fl]; [|exact H].
    destruct H as [[_ _ Hph _] _]. intros Hfail.
    destruct Hph as [_ _ _ Hf|b q _ _ _ Hf|Hf Hp _]; try congruence.
    split; [exact Hp|]. intros ls' w' E.
    exact (passed_dead_exec N R ls' w w' Hf Hp E).
Qed.

Lemma C7_error_completion_witness :
  0 < 4 < SIZE_MODULUS /\
  match
    exec 4 4 [CallSend [x61; x62; x63; x64; x65]; WriteDone true 0] (opened 4 0)
  with
  | Done _ w =>
      write_failed (trace w) = true ->
      pending_writes w = [] /\
      forall ls' w',
        exec 4 4 ls' w = Done tt w' ->
        pending_writes w' = [] /\
        passed (trace w') = passed (trace w) /\
        exists cs, write_queue_ (comm w') = write_queue_ (comm w) ++ cs
  | Fail fl => fl = Disabled
  end.
Proof.
  split; [split; reflexivity|].
  pose proof (C7_error_completion 4 4 0
                [CallSend [x61; x62; x63; x64; x65]; WriteDone true 0]) as H.
  destruct H as (_ & _ & _ & H). exact (H (conj eq_refl eq_refl)).
Defined.

Example write_error_abandons_queue :
  exists w,
    exec 4 4 [CallSend [x61; x62; x63; x64; x65]; WriteDone true 0; CallSend [x66]]
      (opened 4 0) = Done tt w /\
    map WriteBuffer.data (write_queue_ (comm w)) = [[x61; x62; x63; x64]; [x65]; [x66]] /\
    passed (trace w) = [[x61; x62; x63; x64]] /\
    pending_writes w = [] /\
    error_ (comm w) = true.
Proof. vm_compute. eexists. repeat split. Qed.

(** ** Lifecycle *)

(** C8: when the transport's [do_init] fails, [init] returns [false] and
    starts no thread: it leaves the object as it was, for a freshly
    constructed object with all flags clear, both queues empty and none of
    the three thread handles joinable, and the only action performed is the
    call of the hook.  When [do_init] succeeds on a freshly constructed
    object, [init] starts the Supervisor thread and returns [true]; the
    other two threads are started by the Supervisor. *)
Theorem C8_init (R : Z) :
  (forall w,
     init false w
     = Done false (set_transport_open false (set_trace (trace w ++ [DoInit false]) w))) /\
  (exists w',
     init false (new_world R) = Done false w' /\
     comm w' = Comm_ctor R /\
     trace w' = [DoInit false] /\
     joinable (main_thread_ (comm w')) = false /\
     joinable (io_thread_ (comm w')) = false /\
     joinable (callback_thread_ (comm w')) = false /\
     callback_at w' = CbNotStarted /\
     pending_reads w' = O /\ pending_writes w' = []) /\
  (exists w',
     init true (new_world R) = Done true w' /\
     comm w' = set_thread MainThread attached (Comm_ctor R) /\
     joinable (main_thread_ (comm w')) = true /\
     trace w' = [DoInit true; ThreadStart MainThread]).
Proof.
  split; [|split].
  - intros w. unfold init, do_init. unfold_ops. crush_world w. reflexivity.
  - eexists. repeat split.
  - eexists. repeat split.
Qed.

(** C9: [close()] and the destructor on a channel that was closed before
    return and leave the object, the event loop and the transport as they
    are: all they do is stop the event loop again, call the transport's
    close hook again and set shutdown-requested again, and they never join,
    because [shutdown] joins the Supervisor only while its handle is
    joinable, which it is not after the first [close()]. *)
Theorem C9_close_idempotent (w w1 : World) :
  close w = Done tt w1 ->
  joinable (main_thread_ (comm w1)) = false /\
  close w1
  = Done tt (set_trace (trace w1 ++ [IoServiceStop; DoClose; Lock main_mutex;
                                     Store Lshutdown; Unlock main_mutex;
                                     NotifyOne main_cv]) w1) /\
  Comm_dtor w1
  = Done tt (set_trace (trace w1 ++ [Lock main_mutex; Store Lshutdown;
                                     Unlock main_mutex; NotifyOne main_cv]) w1) /\
  (forall w0,
     exists w',
       shutdown w0 = Done tt w' /\
       trace w' =
         trace w0
           ++ [Lock main_mutex; Store Lshutdown; Unlock main_mutex; NotifyOne main_cv]
           ++ (if joinable (main_thread_ (comm w0))
               then [ThreadJoin MainThread] else [])).
Proof.
  intros E. repeat split.
  - revert E. unfold close, shutdown, join, io_service_stop, do_close. unfold_ops.
    crush_world w. cbn. destruct main_thread_0; cbn; intros [= <-]; reflexivity.
  - revert E. unfold close, shutdown, join, io_service_stop, do_close. unfold_ops.
    crush_world w. cbn. destruct main_thread_0; cbn; intros [= <-]; cbn;
      now rewrite <- !app_assoc.
  - revert E. unfold Comm_dtor, close, shutdown, join, io_service_stop, do_close.
    unfold_ops.
    crush_world w. cbn. destruct main_thread_0; cbn; intros [= <-]; cbn;
      now rewrite <- !app_assoc.
  - intros w0. unfold shutdown, join. unfold_ops. crush_world w0. cbn.
    destruct main_thread_0; cbn; eexists; split; try reflexivity; cbn;
      now rewrite <- !app_assoc.
Qed.

Lemma C9_close_idempotent_witness :
  exists w1,
    close (opened 4 0) = Done tt w1 /\
    close w1
    = Done tt (set_trace (trace w1 ++ [IoServiceStop; DoClose; Lock main_mutex;
                                       Store Lshutdown; Unlock main_mutex;
                                       NotifyOne main_cv]) w1).
Proof.
  assert (E : exists w1, close (opened 4 0) = Done tt w1)
    by (vm_compute; eexists; reflexivity).
  destruct E as (w1 & E).
  exists w1. split; [exact E|].
  pose proof (C9_close_idempotent (opened 4 0) w1 E) as H.
  destruct H as (_ & H & _). exact H.
Defined.

Example close_twice :
  performed (close ;; close) (opened 4 0) =
    [IoServiceStop; DoClose; Lock main_mutex; Store Lshutdown; Unlock main_mutex;
     NotifyOne main_cv; ThreadJoin MainThread;
     IoServiceStop; DoClose; Lock main_mutex; Store Lshutdown; Unlock main_mutex;
     NotifyOne main_cv].
Proof. vm_compute. reflexivity. Qed.

(** C10: the handler of a successful write completion that finds the write
    queue empty takes the write lock, clears the in-flight flag, releases
    the lock and returns; it touches nothing else and does not call
    [front()].  In no world does the handler of a write completion abort:
    it calls [front()] and [pop_front()] on a non-empty queue only. *)
Theorem C10_write_end_empty_queue (w : World) (error : bool) (bytes_transferred : Z) :
  (write_queue_ (comm w) = [] ->
   async_write_end false bytes_transferred w
   = Done tt
       (set_comm (set_write_in_progress_ false (comm w))
          (set_trace (trace w ++ [Lock write_mutex; Store Lwrite_in_progress;
                                  Unlock write_mutex]) w))) /\
  (front w = Fail Aborted <-> write_queue_ (comm w) = []) /\
  exists w', async_write_end error bytes_transferred w = Done tt w'.
Proof.
  split; [|split; [split|]].
  - intros Hq. unfold_ops. crush_world w. cbn in *. subst. cbn.
    now rewrite <- !app_assoc.
  - unfold_ops. destruct (write_queue_ (comm w)); [reflexivity|discriminate].
  - intros Hq. unfold_ops. now rewrite Hq.
  - unfold_ops. crush_world w. cbn.
    destruct error; cbn; [eexists; reflexivity|].
    destruct write_queue_0 as [|b q]; cbn; [eexists; reflexivity|].
    destruct (WriteBuffer.nbytes (WriteBuffer.advance bytes_transferred b) =? 0); cbn.
    + destruct q as [|b' q']; cbn; eexists; reflexivity.
    + eexists; reflexivity.
Qed.

Lemma C10_write_end_empty_queue_witness :
  async_write_end false 3 (opened 4 0)
  = Done tt
      (set_comm (set_write_in_progress_ false (comm (opened 4 0)))
         (set_trace (trace (opened 4 0)
                       ++ [Lock write_mutex; Store Lwrite_in_progress;
                           Unlock write_mutex]) (opened 4 0))).
Proof.
  pose proof (C10_write_end_empty_queue (opened 4 0) false 3) as H.
  destruct H as (H & _). exact (H eq_refl).
Defined.

(** * Further properties of the code *)

(** ** [send_bytes] at its edges *)

(** X1: sending an empty payload returns for every chunk size, also zero,
    and appends no chunk; when a write is in flight or the queue is empty,
    as in every state an open channel reaches, it passes nothing to the
    transport and leaves the in-flight flag as it is. *)
Theorem X1_send_empty (N : Z) (w : World) :
  exists w',
    send N [] w = Done tt w' /\
    write_queue_ (comm w') = write_queue_ (comm w) /\
    (write_in_progress_ (comm w) = true \/ write_queue_ (comm w) = [] ->
     pending_writes w' = pending_writes w /\
     passed (trace w') = passed (trace w) /\
     write_in_progress_ (comm w') = write_in_progress_ (comm w)).
Proof.
  unfold send, send_bytes. cbn [length send_bytes_loop Z.of_nat Z.ltb Z.compare].
  unfold_ops. crush_world w. cbn.
  destruct write_in_progress_0; cbn.
  - eexists. repeat split; cbn; obs; reflexivity.
  - destruct write_queue_0 as [|b q]; cbn.
    + eexists. repeat split; cbn; obs; reflexivity.
    + eexists. split; [reflexivity|]. split; [reflexivity|].
      intros [H|H]; discriminate H.
Qed.

Lemma X1_send_empty_witness :
  exists w',
    send 0 [] (opened 4 0) = Done tt w' /\
    pending_writes w' = pending_writes (opened 4 0) /\
    passed (trace w') = passed (trace (opened 4 0)).
Proof.
  pose proof (X1_send_empty 0 (opened 4 0)) as H.
  destruct H as (w' & E & _ & H).
  destruct (H (or_intror eq_refl)) as (Hp & Ht & _).
  exists w'. repeat split; assumption.
Defined.

(** X2: a send of at least one and at most [N] bytes appends exactly one
    chunk, which holds the whole payload with its cursor at the start. *)
Theorem X2_send_small_payload (N : Z) (bytes : list byte) (w : World) :
  0 < Z.of_nat (length bytes) <= N ->
  Z.of_nat (length bytes) + N <= SIZE_MODULUS ->
  exists w',
    send N bytes w = Done tt w' /\
    write_queue_ (comm w') =
      write_queue_ (comm w) ++ [WriteBuffer.mk bytes (Z.of_nat (length bytes)) 0].
Proof.
  intros HM Hsize.
  destruct (send_chunks N bytes) as (cs & Hcs & Hlen & Hfresh & _ & Hcat); [lia| |].
  { unfold sendable. now apply Z.leb_le. }
  destruct (send_queue N bytes cs w Hcs) as (w' & E & Hq).
  exists w'. split; [exact E|]. rewrite Hq. f_equal.
  assert (H1 : (Z.of_nat (length bytes) + N - 1) / N = 1).
  { replace (Z.of_nat (length bytes) + N - 1)
      with (Z.of_nat (length bytes) - 1 + 1 * N) by lia.
    rewrite Z.div_add by lia. rewrite Z.div_small by lia. reflexivity. }
  rewrite H1 in Hlen.
  destruct cs as [|c [|c' cs]]; cbn [length] in Hlen; try lia.
  cbn in Hcat. rewrite app_nil_r in Hcat.
  inversion Hfresh as [|? ? (Hpos & _ & Hdata) _]; subst.
  destruct c as [d l p]; cbn in *. subst. reflexivity.
Qed.

Lemma X2_send_small_payload_witness :
  exists w',
    send 4 [x61; x62; x63] (opened 4 0) = Done tt w' /\
    write_queue_ (comm w') =
      write_queue_ (comm (opened 4 0)) ++ [WriteBuffer.mk [x61; x62; x63] 3 0].
Proof.
  apply (X2_send_small_payload 4 [x61; x62; x63] (opened 4 0)).
  - split; [reflexivity|]. vm_compute. discriminate.
  - vm_compute. discriminate.
Defined.

(** X3: with a chunk size of zero the loop of [send_bytes] never ends on a
    non-empty payload: the position stays at the start, so whatever the
    fuel, the loop uses it up. *)
Theorem X3_zero_chunk_size_diverges (fuel : nat) (src : list byte) (len : Z)
  (w : World) :
  0 < len ->
  send_bytes_loop 0 fuel src len 0 w = Fail OutOfFuel /\
  send_bytes 0 fuel src len w = Fail OutOfFuel.
Proof.
  intros Hlen.
  assert (H : forall w0, send_bytes_loop 0 fuel src len 0 w0 = Fail OutOfFuel).
  { induction fuel as [|fuel IH]; intros w0; cbn [send_bytes_loop].
    - reflexivity.
    - destruct (Z.ltb_spec 0 len) as [_|Hge]; [|lia].
      unfold store, bind, emit at 1.
      change (wrap (0 + 0)) with 0. apply IH. }
  split; [apply H|].
  unfold send_bytes, bind, lock, emit. now rewrite H.
Qed.

Lemma X3_zero_chunk_size_diverges_witness :
  send_bytes 0 100 [x61] 1 (opened 4 0) = Fail OutOfFuel.
Proof.
  pose proof (X3_zero_chunk_size_diverges 100 [x61] 1 (opened 4 0)) as H.
  destruct (H eq_refl) as [_ H']. exact H'.
Defined.

(** ** The write queue *)

(** X4: in every state an open channel reaches, every queued chunk has its
    cursor before its end and holds at most [N] bytes, so a fully sent chunk
    never stays queued and no chunk is empty; a clear in-flight flag means
    an empty queue with nothing pending; a write that is pending carries
    exactly the unsent remainder of the front chunk, which is not empty; and
    as long as no write has failed, a non-empty queue has a write pending,
    so queued bytes never wait without a write in flight. *)
Theorem X4_write_queue_invariant (N R : Z) (f : nat) (ls : list label) :
  0 < N < SIZE_MODULUS ->
  match exec N R ls (opened R f) with
  | Done _ w =>
      Forall (fun b => 0 <= WriteBuffer.pos b < WriteBuffer.len b /\
                       WriteBuffer.len b <= N /\
                       Z.of_nat (length (WriteBuffer.data b)) = WriteBuffer.len b)
        (write_queue_ (comm w)) /\
      (write_in_progress_ (comm w) = false ->
       write_queue_ (comm w) = [] /\ pending_writes w = []) /\
      (forall buf rest,
         pending_writes w = buf :: rest ->
         rest = [] /\ buf <> [] /\
         exists b q,
           write_queue_ (comm w) = b :: q /\
           buf = skipn (Z.to_nat (WriteBuffer.pos b)) (WriteBuffer.data b)) /\
      (write_failed (trace w) = false ->
       write_queue_ (comm w) <> [] ->
       exists buf, pending_writes w = [buf])
  | Fail fl => fl = Disabled
  end.
Proof.
  intros HN. pose proof (exec_opened N R f ls HN) as H.
  destruct (exec N R ls (opened R f)) as [[] w|fl]; [|exact H].
  destruct H as [[Hch Hby Hph Hpa] _].
  split; [exact Hch|].
  destruct Hph as [Hf Hq Hp Hwf|b q Hf Hq Hp Hwf|Hf Hp Hwf].
  - repeat split; auto; try congruence.
  - rewrite Hq in Hch. inversion Hch as [|? ? Hb _]; subst.
    destruct (remainder_wf N b (proj2 HN) Hb) as [Hrem Hlen].
    split; [congruence|]. split.
    + intros buf rest H. rewrite Hp in H. injection H as <- <-.
      split; [reflexivity|]. split.
      * intros Hnil. rewrite Hnil in Hlen. cbn in Hlen.
        destruct Hb as (? & _). lia.
      * exists b, q. auto.
    + intros _ _. now exists (remainder b).
  - repeat split; try congruence.
Qed.

Lemma X4_write_queue_invariant_witness :
  0 < 4 < SIZE_MODULUS /\
  match
    exec 4 4 [CallSend [x61; x62; x63; x64; x65]; WriteDone false 3] (opened 4 0)
  with
  | Done _ w =>
      Forall (fun b => 0 <= WriteBuffer.pos b < WriteBuffer.len b /\
                       WriteBuffer.len b <= 4 /\
                       Z.of_nat (length (WriteBuffer.data b)) = WriteBuffer.len b)
        (write_queue_ (comm w)) /\
      (write_in_progress_ (comm w) = false ->
       write_queue_ (comm w) = [] /\ pending_writes w = []) /\
      (forall buf rest,
         pending_writes w = buf :: rest ->
         rest = [] /\ buf <> [] /\
         exists b q,
           write_queue_ (comm w) = b :: q /\
           buf = skipn (Z.to_nat (WriteBuffer.pos b)) (WriteBuffer.data b)) /\
      (write_failed (trace w) = false ->
       write_queue_ (comm w) <> [] ->
       exists buf, pending_writes w = [buf])
  | Fail fl => fl = Disabled
  end.
Proof.
  split; [split; reflexivity|].
  exact (X4_write_queue_invariant 4 4 0
           [CallSend [x61; x62; x63; x64; x65]; WriteDone false 3]
           (conj eq_refl eq_refl)).
Defined.

(** X5: [send_bytes] does not ask whether the channel is open: on every
    world whose write pipeline is idle (flag clear, queue empty), whether or
    not the transport is open and the event loop running, a send of a
    non-empty payload returns with the in-flight flag set and has passed to
    the transport exactly the first chunk, the first [N] bytes of the
    payload (all of it when it is shorter). *)
Theorem X5_idle_send_starts_write (N : Z) (bytes : list byte) (w : World) :
  0 < N ->
  Z.of_nat (length bytes) + N <= SIZE_MODULUS ->
  bytes <> [] ->
  write_in_progress_ (comm w) = false ->
  write_queue_ (comm w) = [] ->
  exists w',
    send N bytes w = Done tt w' /\
    pending_writes w' = pending_writes w ++ [firstn (Z.to_nat N) bytes] /\
    passed (trace w') = passed (trace w) ++ [firstn (Z.to_nat N) bytes] /\
    write_in_progress_ (comm w') = true /\
    transport_open w' = transport_open w /\
    io_stopped w' = io_stopped w.
Proof.
  intros HN Hsize Hne Hf Hq.
  destruct (send_chunks N bytes HN) as (cs & Hcs & _ & _ & _ & _).
  { unfold sendable. now apply Z.leb_le. }
  assert (Hlen : 0 < Z.of_nat (length bytes)).
  { destruct bytes; [congruence|cbn [length]; lia]. }
  assert (Hfirst : exists c cs', cs = c :: cs' /\ remainder c = firstn (Z.to_nat N) bytes).
  { cbn [loop_chunks] in Hcs.
    destruct (Z.ltb_spec 0 (Z.of_nat (length bytes))) as [_|]; [|lia].
    destruct (loop_chunks N (length bytes) bytes (Z.of_nat (length bytes)) (wrap (0 + N)))
      as [cs'|]; [|discriminate].
    injection Hcs as <-. eexists. eexists. split; [reflexivity|].
    rewrite Z.sub_0_r. rewrite (wrap_small (Z.of_nat (length bytes))) by lia.
    unfold remainder, WriteBuffer.nbytes, WriteBuffer.dpos, WriteBuffer.new,
      asio_buffer. cbn.
    destruct (Z.gtb_spec (Z.of_nat (length bytes)) N) as [Hbig|Hsmall].
    - rewrite Z.sub_0_r, wrap_small by lia. rewrite firstn_firstn. f_equal. lia.
    - rewrite Z.sub_0_r, wrap_small by lia. rewrite firstn_firstn.
      rewrite Nat.min_id, Nat2Z.id. rewrite firstn_all.
      symmetry. apply firstn_all2. lia. }
  destruct Hfirst as (c & cs' & -> & Hrem).
  unfold send, send_bytes, bind, lock, emit.
  rewrite send_bytes_loop_chunks, Hcs. clear Hcs.
  unfold enqueue. unfold_ops. crush_world w. cbn in Hf, Hq |- *. subst. cbn.
  fold (remainder c). rewrite Hrem.
  eexists. split; [reflexivity|]. cbn. repeat split.
  obs. reflexivity.
Qed.

Lemma X5_idle_send_starts_write_witness :
  exists w',
    send 2 [x61; x62; x63] (closing 4 0) = Done tt w' /\
    pending_writes w' = [[x61; x62]] /\
    transport_open w' = false.
Proof.
  pose proof (X5_idle_send_starts_write 2 [x61; x62; x63] (closing 4 0)) as H.
  destruct H as (w' & E & Hp & _ & _ & Ho & _).
  - reflexivity.
  - vm_compute. discriminate.
  - discriminate.
  - reflexivity.
  - reflexivity.
  - exists w'. repeat split; assumption.
Defined.

(** ** The receive callback *)

Lemma open_unregistered_world (R : Z) :
  open_unregistered (new_world R) = Done true (unregistered R).
Proof. reflexivity. Qed.

(** X6: when no receive callback was registered, the Callback Thread
    aborts the program at the first chunk it dispatches, because it calls an
    empty [std::function]: on a channel opened without a callback, the
    first successful read completion, the wake-up and the first turn of the
    inner loop end in an abort. *)
Theorem X6_dispatch_without_callback (N R : Z) (received : list byte) :
  Z.of_nat (length received) <= R ->
  exec N R [ReadDone false received; CallbackWake; CallbackInvoke] (unregistered R)
  = Fail Aborted /\
  (forall w b rest,
     receive_callback_ (comm w) = empty_function ->
     local_queue w = b :: rest ->
     process_callbacks_invoke w = Fail Aborted).
Proof.
  intros HR. split.
  - apply Z.leb_le in HR.
    cbn [exec step]. unfold bind, read_done, when_callback_at. unfold_ops.
    cbn. rewrite HR. cbn. reflexivity.
  - intros w b rest Hcb Hlq. unfold_ops. rewrite Hlq. cbn. now rewrite Hcb.
Qed.

Lemma X6_dispatch_without_callback_witness :
  exec 4 4 [ReadDone false [x61]; CallbackWake; CallbackInvoke] (unregistered 4)
  = Fail Aborted.
Proof.
  pose proof (X6_dispatch_without_callback 4 4 [x61]) as H.
  destruct H as [H _]; [vm_compute; discriminate|exact H].
Defined.

(** ** Lifecycle *)

(** X7: [init] must not be called while the Supervisor handle is joinable:
    when the transport opens again, assigning the new thread to the
    joinable [main_thread_] terminates the program; when the transport
    fails to open, [init] returns [false] and leaves the object alone. *)
Theorem X7_init_on_open_channel (w : World) :
  joinable (main_thread_ (comm w)) = true ->
  init true w = Fail Aborted /\
  (exists w', init false w = Done false w' /\ comm w' = comm w).
Proof.
  intros Hj. unfold init, do_init, thread_assign. unfold_ops.
  crush_world w. cbn in Hj |- *. rewrite Hj. cbn.
  split; [reflexivity|]. eexists. split; reflexivity.
Qed.

Lemma X7_init_on_open_channel_witness : init true (opened 4 0) = Fail Aborted.
Proof.
  pose proof (X7_init_on_open_channel (opened 4 0)) as H.
  destruct (H eq_refl) as [H' _]. exact H'.
Defined.

(** X8: when error or shutdown-requested is already set as [run] reaches
    its wait (the owner closed the channel before the Supervisor got
    there), [run] does not block: it starts the Callback Thread, arms the
    first read if the transport is open, starts the I/O Loop Thread and goes
    straight through the shutdown sequence, joining both threads; it leaves
    neither handle joinable, the event loop stopped and
    callback-shutdown-requested set. *)
Theorem X8_run_without_waiting (w : World) :
  error_ (comm w) || shutdown_ (comm w) = true ->
  joinable (io_thread_ (comm w)) = false ->
  joinable (callback_thread_ (comm w)) = false ->
  exists w',
    run w = Done tt w' /\
    trace w' =
      trace w
        ++ [ThreadStart CallbackThread]
        ++ (if transport_open w then [DoAsyncRead] else [])
        ++ [ThreadStart IoThread; Lock main_mutex; Unlock main_mutex;
            IoServiceStop; Lock callback_mutex; Store Lcallback_shutdown;
            Unlock callback_mutex; NotifyOne callback_cv;
            ThreadJoin IoThread; ThreadJoin CallbackThread] /\
    joinable (io_thread_ (comm w')) = false /\
    joinable (callback_thread_ (comm w')) = false /\
    io_stopped w' = true /\
    callback_shutdown_ (comm w') = true.
Proof.
  intros Hp Hio Hcb.
  unfold run, run_start, run_stop, wait_return, thread_assign, join, io_service_stop.
  unfold_ops. crush_world w. cbn in Hp, Hio, Hcb |- *.
  destruct io_thread_0; [|discriminate Hio].
  destruct callback_thread_0; [|discriminate Hcb]. cbn.
  destruct transport_open0; cbn; rewrite Hp; cbn;
    eexists; (split; [reflexivity|]); cbn; repeat split;
    now rewrite <- !app_assoc.
Qed.

Lemma X8_run_without_waiting_witness :
  exists w',
    run (set_comm (set_shutdown_ true (comm (new_world 4))) (new_world 4))
    = Done tt w' /\
    io_stopped w' = true.
Proof.
  pose proof (X8_run_without_waiting
                (set_comm (set_shutdown_ true (comm (new_world 4))) (new_world 4)))
    as H.
  destruct (H eq_refl eq_refl eq_refl) as (w' & E & _ & _ & _ & Hs & _).
  exists w'. split; assumption.
Defined.

(** X9: a wake-up of the Callback Thread that finds
    callback-shutdown-requested set ends the thread at once, also when new
    data is flagged: it takes and releases the lock, moves nothing out of
    the read queue and invokes no callback, and no further step of the
    thread is possible, so the chunks still in the read queue are never
    delivered. *)
Theorem X9_wake_on_shutdown (N R : Z) (w : World) :
  callback_shutdown_ (comm w) = true ->
  exists w',
    process_callbacks_wake w = Done tt w' /\
    w' = set_callback_at CbExited
           (set_trace (trace w ++ [Lock callback_mutex; Unlock callback_mutex]) w) /\
    read_queue_ (comm w') = read_queue_ (comm w) /\
    local_queue w' = local_queue w /\
    delivered (trace w') = delivered (trace w) /\
    step N R CallbackWake w' = Fail Disabled /\
    step N R CallbackInvoke w' = Fail Disabled.
Proof.
  intros Hs. unfold_ops. crush_world w. cbn in Hs |- *. subst.
  rewrite orb_true_r. cbn.
  eexists. split; [reflexivity|]. cbn.
  split; [now rewrite <- !app_assoc|].
  repeat split. obs. reflexivity.
Qed.

Lemma X9_wake_on_shutdown_witness :
  exists w',
    process_callbacks_wake
      (set_comm (set_callback_shutdown_ true (comm (opened 4 0))) (opened 4 0))
    = Done tt w' /\
    step 4 4 CallbackInvoke w' = Fail Disabled.
Proof.
  pose proof (X9_wake_on_shutdown 4 4
                (set_comm (set_callback_shutdown_ true (comm (opened 4 0)))
                   (opened 4 0))) as H.
  destruct (H eq_refl) as (w' & E & _ & _ & _ & _ & _ & Hi).
  exists w'. split; assumption.
Defined.

(** X10: an error reported by a read or a write completion always lets the
    Supervisor through: after the handler, the wait of [run] returns and
    the shutdown sequence runs to its end, with the event loop stopped,
    callback-shutdown-requested set and neither thread handle joinable. *)
Theorem X10_error_escalates (w : World) (n : Z) :
  (exists w',
     (async_read_end true n ;; run_stop) w = Done tt w' /\
     error_ (comm w') = true /\ io_stopped w' = true /\
     callback_shutdown_ (comm w') = true /\
     joinable (io_thread_ (comm w')) = false /\
     joinable (callback_thread_ (comm w')) = false) /\
  (exists w',
     (async_write_end true n ;; run_stop) w = Done tt w' /\
     error_ (comm w') = true /\ io_stopped w' = true /\
     callback_shutdown_ (comm w') = true /\
     joinable (io_thread_ (comm w')) = false /\
     joinable (callback_thread_ (comm w')) = false).
Proof.
  split; unfold run_stop, wait_return, join, io_service_stop; unfold_ops;
    crush_world w; cbn;
    destruct io_thread_0, callback_thread_0; cbn;
    eexists; repeat split.
Qed.

(** ** The read pipeline *)

Lemma read_failed_app (tr tr' : list event) :
  read_failed (tr ++ tr') = read_failed tr || read_failed tr'.
Proof.
  induction tr as [|e tr IH]; [reflexivity|].
  destruct e; cbn; auto. destruct error; cbn; auto.
Qed.

Lemma read_failed_stores (n : nat) (l : location) :
  read_failed (repeat (Store l) n) = false.
Proof. induction n; [reflexivity|exact IHn]. Qed.

Ltac obs_reads :=
  do 3 (repeat rewrite ?read_failed_app, ?read_failed_stores, ?arrived_app,
          ?arrived_stores;
        cbn; rewrite ?app_nil_r, ?orb_false_r).

Lemma step_reads (N R : Z) (l : label) (w w' : World) :
  transport_open w = true ->
  pending_reads w = (if read_failed (trace w) then 0 else 1)%nat ->
  step N R l w = Done tt w' ->
  transport_open w' = true /\
  pending_reads w' = (if read_failed (trace w') then 0 else 1)%nat.
Proof.
  intros Ho Hp.
  destruct l as [bytes|error n|error received| |]; cbn [step].
  - destruct (sendable N bytes); [|discriminate].
    unfold send, send_bytes, bind, lock, emit.
    rewrite send_bytes_loop_chunks.
    destruct (loop_chunks _ _ _ _ _) as [cs|]; [|discriminate].
    unfold enqueue. unfold_ops. crush_world w. cbn in Ho, Hp |- *.
    destruct write_in_progress_0; cbn.
    + intros [= <-]; cbn. split; [exact Ho|]. obs_reads. exact Hp.
    + destruct (write_queue_0 ++ cs); cbn; intros [= <-]; cbn;
        (split; [exact Ho|]); obs_reads; exact Hp.
  - unfold write_done. unfold_ops. crush_world w. cbn in Ho, Hp |- *.
    destruct pending_writes0 as [|buf rest]; [discriminate|].
    destruct (negb io_stopped0 && _ && _); [|discriminate].
    destruct error; cbn.
    + intros [= <-]; cbn. split; [exact Ho|]. obs_reads. exact Hp.
    + destruct write_queue_0 as [|b q]; cbn.
      * intros [= <-]; cbn. split; [exact Ho|]. obs_reads. exact Hp.
      * destruct (WriteBuffer.nbytes (WriteBuffer.advance n b) =? 0); cbn.
        -- destruct q; cbn; intros [= <-]; cbn;
             (split; [exact Ho|]); obs_reads; exact Hp.
        -- intros [= <-]; cbn. split; [exact Ho|]. obs_reads. exact Hp.
  - unfold read_done. unfold_ops. crush_world w. cbn in Ho, Hp |- *.
    destruct (read_failed trace0) eqn:Hrf; rewrite Hp; [discriminate|].
    rewrite Ho.
    destruct (negb io_stopped0 && _); [|discriminate].
    destruct error; cbn; intros [= <-]; cbn; (split; [reflexivity|]);
      obs_reads; rewrite Hrf; reflexivity.
  - unfold when_callback_at. destruct (callback_at_eqb _ _); [|discriminate].
    unfold_ops. crush_world w. cbn in Ho, Hp |- *.
    destruct (new_data_0 || callback_shutdown_0); [|discriminate]. cbn.
    destruct callback_shutdown_0; cbn; intros [= <-]; cbn;
      (split; [exact Ho|]); obs_reads; exact Hp.
  - unfold when_callback_at. destruct (callback_at_eqb _ _); [|discriminate].
    unfold_ops. crush_world w. cbn in Ho, Hp |- *.
    destruct local_queue0 as [|b rest]; cbn.
    + intros [= <-]; cbn. split; [exact Ho|exact Hp].
    + destruct receive_callback_0; cbn; [discriminate|].
      intros [= <-]; cbn. split; [exact Ho|]. obs_reads. exact Hp.
Qed.

Lemma exec_reads (N R : Z) (ls : list label) :
  forall w w',
    transport_open w = true ->
    pending_reads w = (if read_failed (trace w) then 0 else 1)%nat ->
    exec N R ls w = Done tt w' ->
    transport_open w' = true /\
    pending_reads w' = (if read_failed (trace w') then 0 else 1)%nat.
Proof.
  induction ls as [|l ls IH]; intros w w' Ho Hp.
  - cbn. intros [= <-]. auto.
  - cbn [exec]. unfold bind.
    destruct (step N R l w) as [[] w1|fl] eqn:E; [|discriminate].
    destruct (step_reads N R l w w1 Ho Hp E) as [Ho1 Hp1].
    apply IH; assumption.
Qed.

Lemma no_read_step (N R : Z) (l : label) (w w' : World) :
  pending_reads w = O ->
  step N R l w = Done tt w' ->
  pending_reads w' = O /\ arrived (trace w') = arrived (trace w).
Proof.
  intros Hp.
  destruct l as [bytes|error n|error received| |]; cbn [step].
  - destruct (sendable N bytes); [|discriminate].
    unfold send, send_bytes, bind, lock, emit.
    rewrite send_bytes_loop_chunks.
    destruct (loop_chunks _ _ _ _ _) as [cs|]; [|discriminate].
    unfold enqueue. unfold_ops. crush_world w. cbn in Hp |- *.
    destruct write_in_progress_0; cbn.
    + intros [= <-]; cbn. split; [exact Hp|]. obs_reads. reflexivity.
    + destruct (write_queue_0 ++ cs); cbn; intros [= <-]; cbn;
        (split; [exact Hp|]); obs_reads; reflexivity.
  - unfold write_done. unfold_ops. crush_world w. cbn in Hp |- *.
    destruct pending_writes0 as [|buf rest]; [discriminate|].
    destruct (negb io_stopped0 && _ && _); [|discriminate].
    destruct error; cbn.
    + intros [= <-]; cbn. split; [exact Hp|]. obs_reads. reflexivity.
    + destruct write_queue_0 as [|b q]; cbn.
      * intros [= <-]; cbn. split; [exact Hp|]. obs_reads. reflexivity.
      * destruct (WriteBuffer.nbytes (WriteBuffer.advance n b) =? 0); cbn.
        -- destruct q; cbn; intros [= <-]; cbn;
             (split; [exact Hp|]); obs_reads; reflexivity.
        -- intros [= <-]; cbn. split; [exact Hp|]. obs_reads. reflexivity.
  - unfold read_done. rewrite Hp. discriminate.
  - unfold when_callback_at. destruct (callback_at_eqb _ _); [|discriminate].
    unfold_ops. crush_world w. cbn in Hp |- *.
    destruct (new_data_0 || callback_shutdown_0); [|discriminate]. cbn.
    destruct callback_shutdown_0; cbn; intros [= <-]; cbn;
      (split; [exact Hp|]); obs_reads; reflexivity.
  - unfold when_callback_at. destruct (callback_at_eqb _ _); [|discriminate].
    unfold_ops. crush_world w. cbn in Hp |- *.
    destruct local_queue0 as [|b rest]; cbn.
    + intros [= <-]; cbn. split; [exact Hp|reflexivity].
    + destruct receive_callback_0; cbn; [discriminate|].
      intros [= <-]; cbn. split; [exact Hp|]. obs_reads. reflexivity.
Qed.

Lemma no_read_exec (N R : Z) (ls : list label) :
  forall w w',
    pending_reads w = O ->
    exec N R ls w = Done tt w' ->
    pending_reads w' = O /\ arrived (trace w') = arrived (trace w).
Proof.
  induction ls as [|l ls IH]; intros w w' Hp.
  - cbn. intros [= <-]. auto.
  - cbn [exec]. unfold bind.
    destruct (step N R l w) as [[] w1|fl] eqn:E; [|discriminate].
    destruct (no_read_step N R l w w1 Hp E) as [Hp1 Ha1].
    intros E'. destruct (IH w1 w' Hp1 E') as [Hp' Ha'].
    split; [exact Hp'|congruence].
Qed.

(** X11: on an open channel at most one read is pending at any time:
    exactly one as long as no read has failed, since every successful
    completion arms the next read, and none once a read has failed; from
    then on no read completion can be delivered and nothing more ever
    arrives, whatever else happens on the channel. *)
Theorem X11_one_read_pending (N R : Z) (f : nat) (ls : list label) :
  0 < N < SIZE_MODULUS ->
  match exec N R ls (opened R f) with
  | Done _ w =>
      pending_reads w = (if read_failed (trace w) then 0 else 1)%nat /\
      (read_failed (trace w) = true ->
       (forall error received, read_done R error received w = Fail Disabled) /\
       forall ls' w',
         exec N R ls' w = Done tt w' ->
         pending_reads w' = O /\ arrived (trace w') = arrived (trace w))
  | Fail fl => fl = Disabled
  end.
Proof.
  intros HN. pose proof (exec_opened N R f ls HN) as H.
  destruct (exec N R ls (opened R f)) as [[] w|fl] eqn:E; [|exact H].
  destruct (exec_reads N R ls (opened R f) w eq_refl eq_refl E) as [_ Hp].
  split; [exact Hp|]. intros Hrf. rewrite Hrf in Hp. split.
  - intros error received. unfold read_done. now rewrite Hp.
  - intros ls' w' E'. exact (no_read_exec N R ls' w w' Hp E').
Qed.

Lemma X11_one_read_pending_witness :
  0 < 4 < SIZE_MODULUS /\
  match exec 4 4 [ReadDone false [x61]; ReadDone true []] (opened 4 0) with
  | Done _ w => pending_reads w = (if read_failed (trace w) then 0 else 1)%nat
  | Fail fl => fl = Disabled
  end.
Proof.
  split; [split; reflexivity|].
  pose proof (X11_one_read_pending 4 4 0 [ReadDone false [x61]; ReadDone true []]
                (conj eq_refl eq_refl)) as H.
  destruct (exec 4 4 [ReadDone false [x61]; ReadDone true []] (opened 4 0))
    as [[] w|fl]; [|exact H].
  destruct H as [H _]. exact H.
Defined.

Example read_error_stops_reads :
  exists w,
    exec 4 4 [ReadDone false [x61]; ReadDone true []; CallSend [x62]] (opened 4 0)
    = Done tt w /\
    pending_reads w = O /\ arrived (trace w) = [[x61]] /\
    read_done 4 false [x63] w = Fail Disabled.
Proof. vm_compute. eexists. repeat split. Qed.

(** ** Lock discipline *)

Lemma held_stores_then (m : mutex) (l : location) (k : nat) (tl : list event) :
  forall d, held m d (repeat (Store l) k ++ tl) = held m d tl.
Proof. induction k as [|k IH]; intros d; [reflexivity|exact (IH d)]. Qed.

Lemma guarded_stores_then (m : mutex) (l l' : location) (d k : nat)
  (tl : list event) :
  negb (location_eqb l l') || negb (Nat.eqb d 0) = true ->
  stores_guarded m l d (repeat (Store l') k ++ tl) = stores_guarded m l d tl.
Proof.
  intros H. induction k as [|k IH]; [reflexivity|].
  cbn. rewrite H. exact IH.
Qed.

Lemma discipline_app (tr evs : list event) :
  locks_free tr = true -> stores_locked tr = true ->
  locks_free evs = true -> stores_locked evs = true ->
  locks_free (tr ++ evs) = true /\ stores_locked (tr ++ evs) = true.
Proof.
  unfold locks_free, stores_locked. intros Hf Hs Hf' Hs'.
  repeat (apply andb_prop in Hf as [Hf ?]). repeat (apply andb_prop in Hs as [Hs ?]).
  repeat match goal with H : Nat.eqb _ 0 = true |- _ => apply Nat.eqb_eq in H end.
  rewrite !held_app, !stores_guarded_app.
  repeat match goal with H : held _ 0 tr = 0%nat |- _ => rewrite H; clear H end.
  repeat match goal with H : stores_guarded _ _ 0 tr = true |- _ => rewrite H; clear H end.
  cbn [andb]. split; assumption.
Qed.

Ltac new_events :=
  eexists; split;
  [ cbn [trace]; rewrite <- ?app_assoc; cbn [app]; reflexivity
  | unfold locks_free, stores_locked; cbn;
    rewrite ?held_stores_then;
    rewrite ?guarded_stores_then by reflexivity;
    cbn; split; reflexivity ].

Lemma step_events (N R : Z) (l : label) (w w' : World) :
  step N R l w = Done tt w' ->
  exists evs,
    trace w' = trace w ++ evs /\
    locks_free evs = true /\ stores_locked evs = true.
Proof.
  destruct l as [bytes|error n|error received| |]; cbn [step].
  - destruct (sendable N bytes); [|discriminate].
    unfold send, send_bytes, bind, lock, emit.
    rewrite send_bytes_loop_chunks.
    destruct (loop_chunks _ _ _ _ _) as [cs|]; [|discriminate].
    unfold enqueue. unfold_ops. crush_world w. cbn.
    destruct write_in_progress_0; cbn; [intros [= <-]; new_events|].
    destruct (write_queue_0 ++ cs); cbn; intros [= <-]; new_events.
  - unfold write_done. unfold_ops. crush_world w. cbn.
    destruct pending_writes0 as [|buf rest]; [discriminate|].
    destruct (negb io_stopped0 && _ && _); [|discriminate].
    destruct error; cbn; [intros [= <-]; new_events|].
    destruct write_queue_0 as [|b q]; cbn; [intros [= <-]; new_events|].
    destruct (WriteBuffer.nbytes (WriteBuffer.advance n b) =? 0); cbn.
    + destruct q; cbn; intros [= <-]; new_events.
    + intros [= <-]; new_events.
  - unfold read_done. unfold_ops. crush_world w. cbn.
    destruct pending_reads0 as [|k]; [discriminate|].
    destruct (negb io_stopped0 && _); [|discriminate].
    destruct error, transport_open0; cbn; intros [= <-]; new_events.
  - unfold when_callback_at. destruct (callback_at_eqb _ _); [|discriminate].
    unfold_ops. crush_world w. cbn.
    destruct (new_data_0 || callback_shutdown_0); [|discriminate]. cbn.
    destruct callback_shutdown_0; cbn; intros [= <-]; new_events.
  - unfold when_callback_at. destruct (callback_at_eqb _ _); [|discriminate].
    unfold_ops. crush_world w. cbn.
    destruct local_queue0 as [|b rest]; cbn.
    + intros [= <-]. exists []. cbn. now rewrite app_nil_r.
    + destruct receive_callback_0; cbn; [discriminate|].
      intros [= <-]; new_events.
Qed.

Lemma exec_discipline (N R : Z) (ls : list label) :
  forall w w',
    locks_free (trace w) = true -> stores_locked (trace w) = true ->
    exec N R ls w = Done tt w' ->
    locks_free (trace w') = true /\ stores_locked (trace w') = true.
Proof.
  induction ls as [|l ls IH]; intros w w' Hf Hs.
  - cbn. intros [= <-]. auto.
  - cbn [exec]. unfold bind.
    destruct (step N R l w) as [[] w1|fl] eqn:E; [|discriminate].
    destruct (step_events N R l w w1 E) as (evs & Ht & Hf' & Hs').
    destruct (discipline_app (trace w) evs Hf Hs Hf' Hs') as [Hf1 Hs1].
    rewrite <- Ht in Hf1, Hs1. apply IH; assumption.
Qed.

(** X12: whatever the schedule of an open channel, every store to the
    write queue or to the in-flight flag happens while [write_mutex_] is
    held, every store to the read queue or to the new-data flag while
    [callback_mutex_] is held, every store to the error flag while
    [main_mutex_] is held, and after every step all three locks are free
    again; the Supervisor's store to callback-shutdown-requested and the
    store of [shutdown] to shutdown-requested happen under
    [callback_mutex_] and [main_mutex_]. *)
Theorem X12_lock_discipline (N R : Z) (f : nat) (ls : list label) :
  0 < N < SIZE_MODULUS ->
  match exec N R ls (opened R f) with
  | Done _ w =>
      stores_locked (trace w) = true /\ locks_free (trace w) = true /\
      (error_ (comm w) || shutdown_ (comm w) = true ->
       stores_guarded callback_mutex Lcallback_shutdown 0 (performed run_stop w)
       = true) /\
      stores_guarded main_mutex Lshutdown 0 (performed shutdown w) = true
  | Fail fl => fl = Disabled
  end.
Proof.
  intros HN. pose proof (exec_opened N R f ls HN) as H.
  destruct (exec N R ls (opened R f)) as [[] w|fl] eqn:E; [|exact H].
  destruct (exec_discipline N R ls (opened R f) w eq_refl eq_refl E) as [Hf Hs].
  split; [exact Hs|]. split; [exact Hf|]. split.
  - intros Hp. unfold performed, run_stop, wait_return, join, io_service_stop.
    unfold_ops. crush_world w. cbn in Hp |- *. rewrite Hp. cbn.
    destruct io_thread_0, callback_thread_0; cbn;
      rewrite <- ?app_assoc; rewrite skipn_app, skipn_all, Nat.sub_diag;
      reflexivity.
  - unfold performed, shutdown, join. unfold_ops. crush_world w. cbn.
    destruct main_thread_0; cbn;
      rewrite <- ?app_assoc; rewrite skipn_app, skipn_all, Nat.sub_diag;
      reflexivity.
Qed.

Lemma X12_lock_discipline_witness :
  0 < 4 < SIZE_MODULUS /\
  match
    exec 4 4 [CallSend [x61; x62; x63; x64; x65]; ReadDone false [x66];
              WriteDone false 4; CallbackWake; CallbackInvoke] (opened 4 0)
  with
  | Done _ w => stores_locked (trace w) = true /\ locks_free (trace w) = true
  | Fail fl => fl = Disabled
  end.
Proof.
  split; [split; reflexivity|].
  pose proof (X12_lock_discipline 4 4 0
                [CallSend [x61; x62; x63; x64; x65]; ReadDone false [x66];
                 WriteDone false 4; CallbackWake; CallbackInvoke]
                (conj eq_refl eq_refl)) as H.
  destruct (exec 4 4 [CallSend [x61; x62; x63; x64; x65]; ReadDone false [x66];
                      WriteDone false 4; CallbackWake; CallbackInvoke] (opened 4 0))
    as [[] w|fl]; [|exact H].
  destruct H as (H1 & H2 & _). split; assumption.
Defined.
